(** * Verification of the Sencha utility layer: Ext.util.Stateful,
    Ext.util.GeoLocation and the getPage helper

  The JavaScript sources are embedded as Rocq functions: an object used as
  a key/value bag is a finite map keyed by property name, an object with a
  fixed set of properties is a record, calls that notify somebody
  (fireEvent, a callback, the store hooks) append to a trace, and code that
  can raise returns a completion. *)

From Stdlib Require Import ZArith Floats.
From stdpp Require Import gmap strings list fin_maps.

Local Open Scope string_scope.
Local Open Scope list_scope.

(** ** JavaScript values *)

Module Js.

(** A JavaScript value.  Numbers are IEEE 754 doubles; functions and
    objects are references, told apart by their identity. *)
Inductive Value : Type :=
  | VUndefined
  | VNull
  | VBool (b : bool)
  | VNum (x : float)
  | VStr (s : string)
  | VFun (ref : positive)
  | VObj (ref : positive).

Definition Infinity : Value := VNum infinity.

(** ToBoolean, the test of [if (v)], [v ? a : b] and [!v]. *)
Definition truthy (v : Value) : bool :=
  match v with
  | VUndefined | VNull => false
  | VBool b => b
  | VNum x => negb (PrimFloat.is_zero x || PrimFloat.is_nan x)
  | VStr s => negb (String.eqb s "")
  | VFun _ | VObj _ => true
  end.

(** [typeof v == 'undefined'] *)
Definition is_undefined (v : Value) : bool :=
  match v with VUndefined => true | _ => false end.

(** [typeof v == "function"] *)
Definition is_function (v : Value) : bool :=
  match v with VFun _ => true | _ => false end.

(** [a === b]: same type and same value, no conversion. *)
Definition strict_eq (a b : Value) : bool :=
  match a, b with
  | VUndefined, VUndefined => true
  | VNull, VNull => true
  | VBool x, VBool y => Bool.eqb x y
  | VNum x, VNum y => PrimFloat.eqb x y
  | VStr x, VStr y => String.eqb x y
  | VFun x, VFun y => Pos.eqb x y
  | VObj x, VObj y => Pos.eqb x y
  | _, _ => false
  end.

(** [v == undefined] and [v == null]: true of exactly undefined and null. *)
Definition is_nullish (v : Value) : bool :=
  match v with VUndefined | VNull => true | _ => false end.

(** What is raised: the TypeError of reading a property of undefined or
    of calling what is not a function, or a value raised by code outside
    these sources. *)
Inductive Exception : Type :=
  | TypeError
  | Raised (e : Value).

(** What a call does: it returns a value or raises. *)
Inductive Completion (A : Type) : Type :=
  | Return (a : A)
  | Throw (e : Exception).
Arguments Return {A} a.
Arguments Throw {A} e.

End Js.

Import Js.

(** ** Ext.util.GeoLocation *)

Module GeoLocation.

(** The provider's Position: a timestamp and the coords object. *)
Module Position.
Record Coordinates : Type := {
  latitude : Value;
  longitude : Value;
  accuracy : Value;
  altitude : Value;
  altitudeAccuracy : Value;
  heading : Value;
  speed : Value
}.
Record t : Type := {
  timestamp : Value;
  coords : Coordinates
}.
End Position.

(** The provider's PositionError.  The Geolocation API declares [code] and
    the three constants as integers (unsigned short); [None] is a property
    the provider's object does not have, which reads as undefined. *)
Module PositionError.
Record t : Type := {
  code : option Z;
  TIMEOUT : option Z;
  PERMISSION_DENIED : option Z;
  POSITION_UNAVAILABLE : option Z;
  message : Value
}.
End PositionError.

(** [a == b] where each side is a number or undefined: two numbers are
    compared as numbers, undefined equals undefined only. *)
Definition loose_eq (a b : option Z) : bool :=
  match a, b with
  | Some x, Some y => Z.eqb x y
  | None, None => true
  | _, _ => false
  end.

(** The properties of the wrapper: whether it tracks the location, the
    position it retrieved last, and its options. *)
Record t : Type := {
  autoUpdate : Value;
  latitude : Value;
  longitude : Value;
  accuracy : Value;
  altitude : Value;
  altitudeAccuracy : Value;
  heading : Value;
  speed : Value;
  timestamp : Value;
  allowHighAccuracy : Value;
  timeout : Value;
  maximumAge : Value
}.

(** The values an instance inherits from the prototype. *)
Definition prototype : t := {|
  autoUpdate := VBool true;
  latitude := VNull;
  longitude := VNull;
  accuracy := VNull;
  altitude := VNull;
  altitudeAccuracy := VNull;
  heading := VNull;
  speed := VNull;
  timestamp := VNull;
  allowHighAccuracy := VBool false;
  timeout := Infinity;
  maximumAge := VNum 0
|}.

(** An argument handed to a listener or to the callback: the wrapper
    itself, in the state it has at that moment, or a value. *)
Inductive Arg : Type :=
  | AThis (me : t)
  | AVal (v : Value).

(** What the wrapper does to the outside, in the order it does it. *)
Inductive Action : Type :=
  | FireEvent (name : string) (args : list Arg)
  | Call (callback : positive) (thisArg : Arg) (args : list Arg).

Record World : Type := {
  me : t;
  trace : list Action
}.

(** Modelled from the spec: fireEvent belongs to Ext.util.Observable, which
    is not among these sources; the wrapper "raises update/error
    notifications", so firing an event is recorded as one notification that
    carries the event's name and arguments. *)
Definition fireEvent (name : string) (args : list Arg) (w : World) : World :=
  {| me := me w; trace := trace w ++ [FireEvent name args] |}.

(** [callback.call(thisArg, args...)]: the callback is the caller's code,
    recorded as one call. *)
Definition call (callback : positive) (thisArg : Arg) (args : list Arg)
    (w : World) : World :=
  {| me := me w; trace := trace w ++ [Call callback thisArg args] |}.

Definition fireUpdate (position : Position.t) (w : World) : World :=
  let c := Position.coords position in
  let this := {|
    autoUpdate := autoUpdate (me w);
    timestamp := Position.timestamp position;
    latitude := Position.latitude c;
    longitude := Position.longitude c;
    accuracy := Position.accuracy c;
    altitude := Position.altitude c;
    altitudeAccuracy := Position.altitudeAccuracy c;
    heading :=
      if is_undefined (Position.heading c) then VNull else Position.heading c;
    speed :=
      if is_undefined (Position.speed c) then VNull else Position.speed c;
    allowHighAccuracy := allowHighAccuracy (me w);
    timeout := timeout (me w);
    maximumAge := maximumAge (me w)
  |} in
  fireEvent "locationupdate" [AThis this] {| me := this; trace := trace w |}.

Definition fireError (error : PositionError.t) (w : World) : World :=
  fireEvent "locationerror"
    [AThis (me w);
     AVal (VBool (loose_eq (PositionError.code error)
                           (PositionError.TIMEOUT error)));
     AVal (VBool (loose_eq (PositionError.code error)
                           (PositionError.PERMISSION_DENIED error)));
     AVal (VBool (loose_eq (PositionError.code error)
                           (PositionError.POSITION_UNAVAILABLE error)));
     AVal (if is_nullish (PositionError.message error) then VNull
           else PositionError.message error)]
    w.

(** [parseOptions]: the object handed to the provider. *)
Definition parseOptions (this : t) : gmap string Value :=
  let ret : gmap string Value :=
    <["allowHighAccuracy" := allowHighAccuracy this]>
      (<["maximumAge" := maximumAge this]> ∅) in
  if negb (strict_eq (timeout this) Infinity)
  then <["timeout" := timeout this]> ret
  else ret.

(** *** updateLocation *)

(** What the caller of updateLocation passed and its closures keep:
    [callback] is [None] when no callback was given, [scope] is undefined
    when omitted. *)
Record Handlers : Type := {
  callback : option positive;
  scope : Value
}.

(** [scope || me] *)
Definition scope_or_me (h : Handlers) (w : World) : Arg :=
  if truthy (scope h) then AVal (scope h) else AThis (me w).

(** The local function failFunction(message, error); [error] is [None] when
    it is absent or falsy. *)
Definition failFunction (h : Handlers) (message : Value)
    (error : option PositionError.t) (w : World) : World :=
  let w :=
    match error with
    | Some e => fireError e w
    | None =>
        fireEvent "locationerror"
          [AThis (me w); AVal (VBool false); AVal (VBool false);
           AVal (VBool true); AVal message] w
    end in
  let w :=
    match callback h with
    | Some cb => call cb (scope_or_me h w) [AVal VNull; AThis (me w)] w
    | None => w
    end in
  fireEvent "update" [AVal (VBool false); AThis (me w)] w.

(** The success callback handed to the provider. *)
Definition onSuccess (h : Handlers) (position : Position.t) (w : World)
    : World :=
  let w := fireUpdate position w in
  let w :=
    match callback h with
    | Some cb => call cb (scope_or_me h w) [AThis (me w); AThis (me w)] w
    | None => w
    end in
  fireEvent "update" [AThis (me w); AThis (me w)] w.

(** The error callback handed to the provider. *)
Definition onError (h : Handlers) (error : option PositionError.t)
    (w : World) : World :=
  failFunction h VNull error w.

(** What updateLocation leaves behind when it returns: a function given to
    setTimeout(..., 0), which will call failFunction(null) ([thrown] is
    [None]) or failFunction(e.message) for the [e] that was caught, or the
    two callbacks held by the provider together with the options it got. *)
Inductive Pending : Type :=
  | Timer (h : Handlers) (thrown : option Exception)
  | Request (h : Handlers) (options : gmap string Value).

(** The platform as updateLocation meets it: Ext.supports.GeoLocation,
    whether the call [this.provider.getCurrentPosition(...)] returns or
    raises (a provider that is null raises a TypeError), and the message
    property of an error object that was raised. *)
Record Platform : Type := {
  supports_GeoLocation : bool;
  getCurrentPosition : gmap string Value → Completion unit;
  error_message : Exception → Value
}.

(** [e.message] for what a catch clause caught: reading a property of
    undefined or null raises a TypeError, a primitive has no such
    property, an error object has the message the platform gave it. *)
Definition message_of (env : Platform) (e : Exception) : Completion Value :=
  match e with
  | Raised VUndefined | Raised VNull => Throw TypeError
  | Raised (VBool _) | Raised (VNum _) | Raised (VStr _) => Return VUndefined
  | Raised (VFun _) | Raised (VObj _) | TypeError =>
      Return (error_message env e)
  end.

(** [positionOptions ? positionOptions : this.parseOptions()] *)
Definition options_for (positionOptions : option (gmap string Value))
    (w : World) : gmap string Value :=
  match positionOptions with
  | Some o => o
  | None => parseOptions (me w)
  end.

Definition updateLocation (env : Platform) (callback : option positive)
    (scope : Value) (positionOptions : option (gmap string Value))
    (w : World) : World * Pending :=
  let h := {| callback := callback; scope := scope |} in
  if negb (supports_GeoLocation env) then (w, Timer h None)
  else
    let options := options_for positionOptions w in
    match getCurrentPosition env options with
    | Return _ => (w, Request h options)
    | Throw e => (w, Timer h (Some e))
    end.

(** What the provider answers to a request it accepted: it calls the
    success callback with a position, or the error callback with its error
    ([None]: with nothing that is truthy). *)
Inductive Answer : Type :=
  | Delivers (position : Position.t)
  | Reports (error : option PositionError.t).

(** The pending work runs, on the wrapper as it is by then: the timer
    fires, or the provider answers.  The timer's function evaluates
    [e.message] before it calls failFunction, so it raises, with nothing
    fired, when that read raises. *)
Definition settle (env : Platform) (answer : Answer) (p : Pending)
    (w : World) : Completion World :=
  match p with
  | Timer h None => Return (failFunction h VNull None w)
  | Timer h (Some e) =>
      match message_of env e with
      | Return message => Return (failFunction h message None w)
      | Throw x => Throw x
      end
  | Request h _ =>
      match answer with
      | Delivers position => Return (onSuccess h position w)
      | Reports error => Return (onError h error w)
      end
  end.

(** Whether an action fires the event of the given name. *)
Definition fires (name : string) (a : Action) : bool :=
  match a with
  | FireEvent n _ => String.eqb n name
  | Call _ _ _ => false
  end.

Definition is_call (a : Action) : bool :=
  match a with
  | Call _ _ _ => true
  | FireEvent _ _ => false
  end.

(** How often a trace fires the event of the given name. *)
Definition fired (name : string) (tr : list Action) : nat :=
  length (List.filter (fires name) tr).

(** The calls of the callback in a trace. *)
Definition calls (tr : list Action) : list Action :=
  List.filter is_call tr.

(** *** Location monitoring *)

(** The calls the wrapper makes on its provider to start and stop a watch;
    a watchPosition call is listed with what it returned or raised. *)
Inductive ProviderCall : Type :=
  | ClearWatch (watchOperation : Value)
  | WatchPosition (options : gmap string Value) (result : Completion Value).

(** The wrapper together with its watchOperation property (null on the
    prototype) and the calls it made on the provider so far. *)
Record Tracker : Type := {
  world : World;
  watchOperation : Value;
  provider_calls : list ProviderCall
}.

(** The platform as setAutoUpdate meets it: besides the above, whether
    [this.provider.watchPosition(...)] returns (the watch's id) or raises. *)
Record Device : Type := {
  platform : Platform;
  watchPosition : gmap string Value → Completion Value
}.

(** [this.autoUpdate = v] *)
Definition assign_autoUpdate (v : Value) (g : t) : t := {|
  autoUpdate := v;
  latitude := latitude g; longitude := longitude g; accuracy := accuracy g;
  altitude := altitude g; altitudeAccuracy := altitudeAccuracy g;
  heading := heading g; speed := speed g; timestamp := timestamp g;
  allowHighAccuracy := allowHighAccuracy g; timeout := timeout g;
  maximumAge := maximumAge g
|}.

(** [this.maximumAge = v] *)
Definition assign_maximumAge (v : Value) (g : t) : t := {|
  autoUpdate := autoUpdate g;
  latitude := latitude g; longitude := longitude g; accuracy := accuracy g;
  altitude := altitude g; altitudeAccuracy := altitudeAccuracy g;
  heading := heading g; speed := speed g; timestamp := timestamp g;
  allowHighAccuracy := allowHighAccuracy g; timeout := timeout g;
  maximumAge := v
|}.

(** [this.timeout = v] *)
Definition assign_timeout (v : Value) (g : t) : t := {|
  autoUpdate := autoUpdate g;
  latitude := latitude g; longitude := longitude g; accuracy := accuracy g;
  altitude := altitude g; altitudeAccuracy := altitudeAccuracy g;
  heading := heading g; speed := speed g; timestamp := timestamp g;
  allowHighAccuracy := allowHighAccuracy g; timeout := v;
  maximumAge := maximumAge g
|}.

(** [this.allowHighAccuracy = v] *)
Definition assign_allowHighAccuracy (v : Value) (g : t) : t := {|
  autoUpdate := autoUpdate g;
  latitude := latitude g; longitude := longitude g; accuracy := accuracy g;
  altitude := altitude g; altitudeAccuracy := altitudeAccuracy g;
  heading := heading g; speed := speed g; timestamp := timestamp g;
  allowHighAccuracy := v; timeout := timeout g;
  maximumAge := maximumAge g
|}.

(** The wrapper of a tracker replaced. *)
Definition with_world (w : World) (k : Tracker) : Tracker :=
  {| world := w; watchOperation := watchOperation k;
     provider_calls := provider_calls k |}.

(** setAutoUpdate(autoUpdate), with the boolean it returns.  Its catch
    clause sets autoUpdate to false and then reads e.message for the event:
    when that read raises, the call raises with no event fired. *)
Definition setAutoUpdate (env : Device) (autoUpdate : Value) (k : Tracker)
    : Tracker * Completion bool :=
  let k :=
    if negb (strict_eq (watchOperation k) VNull)
    then {| world := world k; watchOperation := VNull;
            provider_calls :=
              provider_calls k ++ [ClearWatch (watchOperation k)] |}
    else k in
  if negb (truthy autoUpdate) then (k, Return true)
  else if negb (supports_GeoLocation (platform env)) then
    (with_world
       (fireEvent "locationerror"
          [AThis (me (world k)); AVal (VBool false); AVal (VBool false);
           AVal (VBool true); AVal VNull] (world k)) k,
     Return false)
  else
    let options := parseOptions (me (world k)) in
    match watchPosition env options with
    | Return id =>
        ({| world := world k; watchOperation := id;
            provider_calls :=
              provider_calls k ++ [WatchPosition options (Return id)] |},
         Return true)
    | Throw e =>
        let w := {| me := assign_autoUpdate (VBool false) (me (world k));
                    trace := trace (world k) |} in
        match message_of (platform env) e with
        | Return message =>
            ({| world :=
                  fireEvent "locationerror"
                    [AThis (me w); AVal (VBool false); AVal (VBool false);
                     AVal (VBool true); AVal message] w;
                watchOperation := watchOperation k;
                provider_calls :=
                  provider_calls k ++ [WatchPosition options (Throw e)] |},
             Return false)
        | Throw x =>
            ({| world := w;
                watchOperation := watchOperation k;
                provider_calls :=
                  provider_calls k ++ [WatchPosition options (Throw e)] |},
             Throw x)
        end
    end.

Definition setMaximumAge (env : Device) (maximumAge : Value) (k : Tracker)
    : Tracker :=
  let k := with_world {| me := assign_maximumAge maximumAge (me (world k));
                         trace := trace (world k) |} k in
  fst (setAutoUpdate env (autoUpdate (me (world k))) k).

Definition setTimeout (env : Device) (timeout : Value) (k : Tracker)
    : Tracker :=
  let k := with_world {| me := assign_timeout timeout (me (world k));
                         trace := trace (world k) |} k in
  fst (setAutoUpdate env (autoUpdate (me (world k))) k).

Definition setAllowHighAccuracy (env : Device) (allowHighAccuracy : Value)
    (k : Tracker) : Tracker :=
  let k := with_world
             {| me := assign_allowHighAccuracy allowHighAccuracy
                        (me (world k));
                trace := trace (world k) |} k in
  fst (setAutoUpdate env (autoUpdate (me (world k))) k).

(** What a running watch hands to the two delegates it was given: a
    position to fireUpdate or an error to fireError. *)
Inductive Delivery : Type :=
  | Located (position : Position.t)
  | Failed (error : PositionError.t).

Definition deliver (d : Delivery) (k : Tracker) : Tracker :=
  match d with
  | Located position => with_world (fireUpdate position (world k)) k
  | Failed error => with_world (fireError error (world k)) k
  end.

(** getLocation(callback, scope); it raises when the coordinates are cached
    and there is no callback to call. *)
Definition getLocation (env : Platform) (callback : option positive)
    (scope : Value) (w : World) : Completion (World * option Pending) :=
  if negb (strict_eq (latitude (me w)) VNull) then
    match callback with
    | Some cb =>
        Return
          (call cb (scope_or_me {| callback := callback; scope := scope |} w)
                [AThis (me w); AThis (me w)] w,
           None)
    | None => Throw TypeError
    end
  else
    let '(w', p) := updateLocation env callback scope None w in
    Return (w', Some p).

(** What happens to a tracker: a call of one of its methods on a device, or
    a delivery of the watch. *)
Inductive Op : Type :=
  | op_setAutoUpdate (env : Device) (autoUpdate : Value)
  | op_setMaximumAge (env : Device) (maximumAge : Value)
  | op_setTimeout (env : Device) (timeout : Value)
  | op_setAllowHighAccuracy (env : Device) (allowHighAccuracy : Value)
  | op_deliver (d : Delivery).

Definition step (k : Tracker) (op : Op) : Tracker :=
  match op with
  | op_setAutoUpdate env v => fst (setAutoUpdate env v k)
  | op_setMaximumAge env v => setMaximumAge env v k
  | op_setTimeout env v => setTimeout env v k
  | op_setAllowHighAccuracy env v => setAllowHighAccuracy env v k
  | op_deliver d => deliver d k
  end.

(** A wrapper that has not watched yet: watchOperation is null as on the
    prototype and the provider was not called. *)
Definition unwatched (w : World) : Tracker :=
  {| world := w; watchOperation := VNull; provider_calls := [] |}.

(** [watches held calls final]: read in order from a state where the watch
    [held] runs (null: none), the provider calls start a watch only while
    none runs and clear only the watch that runs, and they leave the watch
    [final] running. *)
Inductive watches : Value → list ProviderCall → Value → Prop :=
  | watches_nil (held : Value) :
      watches held [] held
  | watches_clear (held : Value) (rest : list ProviderCall) (final : Value) :
      strict_eq held VNull = false →
      watches VNull rest final →
      watches held (ClearWatch held :: rest) final
  | watches_start (options : gmap string Value) (id : Value)
      (rest : list ProviderCall) (final : Value) :
      watches id rest final →
      watches VNull (WatchPosition options (Return id) :: rest) final
  | watches_raise (options : gmap string Value) (e : Exception)
      (rest : list ProviderCall) (final : Value) :
      watches VNull rest final →
      watches VNull (WatchPosition options (Throw e) :: rest) final.

End GeoLocation.

(** ** Ext.util.Stateful *)

Module Stateful.

(** The properties of a Stateful object that its methods read or write.
    The data bag is the object held in the property that persistanceProperty
    names ('data'), a property of its own beside editing, dirty and
    modified; [modified] is [None] after [delete this.modified]. *)
Record t : Type := {
  editing : bool;
  dirty : bool;
  modified : option (gmap string Value);
  data : gmap string Value
}.

(** Modelled from the spec: afterEdit, afterReject and afterCommit are not
    defined by Stateful but by the classes that extend it, which are not
    among these sources.  Dirty tracking is "used by the owning collection",
    and reject and commit document their call as the "notification of the
    owning store of the change": each call is recorded as a notification
    and leaves the record as it is. *)
Inductive Notification : Type :=
  | afterEdit
  | afterReject
  | afterCommit.

Record World : Type := {
  this : t;
  notified : list Notification
}.

(** A method body: it runs on the object and returns or raises, leaving the
    object in the state it reached. *)
Definition M (A : Type) : Type := World → Completion A * World.

Definition ret {A : Type} (a : A) : M A := λ w, (Return a, w).

Definition bind {A B : Type} (m : M A) (k : A → M B) : M B :=
  λ w, match m w with
       | (Return a, w') => k a w'
       | (Throw e, w') => (Throw e, w')
       end.

Definition throw {A : Type} (e : Exception) : M A := λ w, (Throw e, w).

Definition read : M t := λ w, (Return (this w), w).

Definition write (r : t) : M unit :=
  λ w, (Return tt, {| this := r; notified := notified w |}).

Definition notify (n : Notification) : M unit :=
  λ w, (Return tt, {| this := this w; notified := notified w ++ [n] |}).

Notation "'let*' x ':=' m 'in' k" := (bind m (λ x, k))
  (at level 10, x name, m at level 100, k at level 200, only parsing).

(** A converter function, by its identity and what it computes from the
    value and the record it is given. *)
Record Converter : Type := {
  ref : positive;
  convert_fn : Value → t → Value
}.

(** A field of the fields collection: its name, its convert function and
    the convert function of its type (each [None] when undefined). *)
Record Field : Type := {
  name : string;
  convert : option Converter;
  type_convert : option Converter
}.

(** [a !== b] on two properties that hold a function or are undefined. *)
Definition differs (a b : option Converter) : bool :=
  match a, b with
  | Some f, Some g => negb (Pos.eqb (ref f) (ref g))
  | None, None => false
  | _, _ => true
  end.

(** The argument lists of set: one object, whose own properties are listed
    in the order of enumeration, or a field name and a value. *)
Inductive SetArgs : Type :=
  | SetObject (fieldName : list (string * Value))
  | SetField (fieldName : string) (value : Value).

(** [obj[key]] on the object passed to set. *)
Definition property (obj : list (string * Value)) (key : string) : Value :=
  match List.find (λ kv, String.eqb (fst kv) key) obj with
  | Some kv => snd kv
  | None => VUndefined
  end.

(** The own property of the object passed to set that has the given name,
    if there is one. *)
Definition own (obj : list (string * Value)) (key : string) : option Value :=
  snd <$> List.find (λ kv, String.eqb (fst kv) key) obj.

(** The names every object created as {} inherits from Object.prototype. *)
Definition Object_prototype : list string :=
  ["constructor"; "hasOwnProperty"; "isPrototypeOf"; "propertyIsEnumerable";
   "toLocaleString"; "toString"; "valueOf"; "__proto__";
   "__defineGetter__"; "__defineSetter__"; "__lookupGetter__";
   "__lookupSetter__"].

(** A name that Object.prototype does not define: as a property name of a
    bag it denotes an own property and nothing else. *)
Definition ordinary (name : string) : bool :=
  negb (existsb (String.eqb name) Object_prototype).

(** The sources call [o.hasOwnProperty(key)] on the bag [o] itself.  When
    [o] has an own property named hasOwnProperty, that one is called
    instead of the inherited method: a value that is not a function raises
    a TypeError.  An own property of that name that holds a function is
    taken to be the inherited method (which is what reading it from
    another bag gives). *)
Definition shadowed (hasOwnProperty : option Value) : bool :=
  match hasOwnProperty with
  | Some v => negb (is_function v)
  | None => false
  end.

(** The state the constructor leaves. *)
Definition constructor : World := {|
  this := {| editing := false; dirty := false;
             modified := Some ∅; data := ∅ |};
  notified := []
|}.

(** get reads the bag, a plain object: [data] holds its own properties, and
    a name it does not hold reads as undefined.  (For the names of
    [Object_prototype] a bag that does not hold them gives what it inherits;
    the properties below that depend on it are stated for [ordinary]
    names.) *)
Definition get (field : string) (r : t) : Value :=
  match data r !! field with
  | Some v => v
  | None => VUndefined
  end.

(** isModified: whether the modified map has the own property.  (It asks
    the map itself, [this.modified.hasOwnProperty(fieldName)]; see
    [shadowed] for a map that records a field of that name.) *)
Definition isModified (fieldName : string) (r : t) : bool :=
  match modified r with
  | Some m => bool_decide (is_Some (m !! fieldName))
  | None => false
  end.

(** The item of a fields collection that is keyed by the given name. *)
Definition item (fs : list Field) (key : string) : option Field :=
  List.find (λ f, String.eqb (name f) key) fs.

Section Methods.

(** [this.fields], which the extending class supplies: the collection of
    its fields, keyed by name, or [None] when there is none. *)
Variable fields : option (list Field).

(** [fields.get(key)], which raises when there is no collection. *)
Definition fields_get (key : string) : M (option Field) :=
  match fields with
  | Some fs => ret (item fs key)
  | None => throw TypeError
  end.

(** set(fieldName, value) called with a name and a value: the else branch.
    The assignment creates or overwrites the bag's own property of that
    name (for every name but __proto__, which a plain object treats as its
    prototype). *)
Definition set_value (fieldName : string) (value : Value) : M unit :=
  let* r := read in
  let value :=
    match fields with
    | Some fs =>
        match item fs fieldName with
        | Some {| convert := Some c |} => convert_fn c value r
        | _ => value
        end
    | None => value
    end in
  let* _ := write {| editing := editing r; dirty := dirty r;
                     modified := modified r;
                     data := <[fieldName := value]> (data r) |} in
  let* r := read in
  let* _ := write {| editing := editing r; dirty := true;
                     modified := modified r; data := data r |} in
  let* r := read in
  if negb (editing r) then notify afterEdit else ret tt.

(** The first loop of set over the own properties of the object; it
    returns convertFields. *)
Fixpoint set_plain (obj : list (string * Value)) (convertFields : list string)
    : M (list string) :=
  match obj with
  | [] => ret convertFields
  | (key, value) :: rest =>
      let* field := fields_get key in
      match field with
      | Some f =>
          if differs (convert f) (type_convert f)
          then set_plain rest (convertFields ++ [key])
          else let* _ := set_value key value in
               set_plain rest convertFields
      | None =>
          let* _ := set_value key value in
          set_plain rest convertFields
      end
  end.

(** The second loop of set, over convertFields. *)
Fixpoint set_converted (obj : list (string * Value))
    (convertFields : list string) : M unit :=
  match convertFields with
  | [] => ret tt
  | field :: rest =>
      let* _ := set_value field (property obj field) in
      set_converted obj rest
  end.

(** set; with an object, the first thing the loop does is call
    [fieldName.hasOwnProperty(key)] on the object passed. *)
Definition set (args : SetArgs) : M unit :=
  match args with
  | SetObject obj =>
      if shadowed (own obj "hasOwnProperty") then throw TypeError
      else
        let* convertFields := set_plain obj [] in
        set_converted obj convertFields
  | SetField fieldName value => set_value fieldName value
  end.

(** [this.fields.each(fn)] with the function of setDirty. *)
Fixpoint each_modified (fs : list Field) : M unit :=
  match fs with
  | [] => ret tt
  | field :: rest =>
      let* r := read in
      match modified r with
      | Some m =>
          let* _ := write {| editing := editing r; dirty := dirty r;
                             modified :=
                               Some (<[name field := get (name field) r]> m);
                             data := data r |} in
          each_modified rest
      | None => throw TypeError
      end
  end.

Definition setDirty : M unit :=
  let* r := read in
  let* _ := write {| editing := editing r; dirty := true;
                     modified := modified r; data := data r |} in
  let* r := read in
  let* _ :=
    match modified r with
    | None => write {| editing := editing r; dirty := dirty r;
                       modified := Some ∅; data := data r |}
    | Some _ => ret tt
    end in
  match fields with
  | Some fs => each_modified fs
  | None => throw TypeError
  end.

(** The loop of reject over the own properties of [modified]. *)
Definition restore (modified : gmap string Value) (bag : gmap string Value)
    : gmap string Value :=
  map_fold (λ field original bag,
              if negb (is_function original)
              then <[field := original]> bag
              else bag)
           bag modified.

(** reject; each round of its loop first calls
    [modified.hasOwnProperty(field)] on the modified map, so the loop raises
    in its first round, before it wrote anything, when the map shadows that
    method. *)
Definition reject (silent : Value) : M unit :=
  let* r := read in
  let* bag :=
    match modified r with
    | Some m =>
        if shadowed (m !! "hasOwnProperty") then throw TypeError
        else ret (restore m (data r))
    | None => ret (data r)
    end in
  let* _ := write {| editing := false; dirty := false;
                     modified := None; data := bag |} in
  if negb (strict_eq silent (VBool true)) then notify afterReject else ret tt.

Definition commit (silent : Value) : M unit :=
  let* r := read in
  let* _ := write {| editing := false; dirty := false;
                     modified := None; data := data r |} in
  if negb (strict_eq silent (VBool true)) then notify afterCommit else ret tt.

(** The calls a client makes on a record. *)
Inductive Method : Type :=
  | call_set (args : SetArgs)
  | call_setDirty
  | call_commit (silent : Value)
  | call_reject (silent : Value).

Definition invoke (m : Method) : M unit :=
  match m with
  | call_set args => set args
  | call_setDirty => setDirty
  | call_commit silent => commit silent
  | call_reject silent => reject silent
  end.

(** The record after a sequence of calls on a new one; a call that raises
    leaves the record as it was when it raised, and the next call runs on
    that. *)
Definition run (calls : list Method) : World :=
  foldl (λ w m, snd (invoke m w)) constructor calls.

End Methods.

(** "modified implies dirty" *)
Definition modified_implies_dirty (r : t) : Prop :=
  ∀ m, modified r = Some m → m ≠ ∅ → dirty r = true.

(** getChanges: the own properties of the modified map, each with the value
    the bag has for it.  (Like isModified it asks the map itself for
    hasOwnProperty; the properties below are stated for maps with
    [ordinary] keys.) *)
Definition getChanges (r : t) : gmap string Value :=
  match modified r with
  | Some m =>
      map_fold (λ field _ changes, <[field := get field r]> changes) ∅ m
  | None => ∅
  end.

End Stateful.

(** ** getPage *)

Module Page.

(** The browser as getPage meets it: whether window.XMLHttpRequest is
    there, what the synchronous request [open(method, url, false);
    send(null)] does (it raises, or it completes and leaves responseText, a
    string or [None] for null), and eval. *)
Record Window : Type := {
  XMLHttpRequest : bool;
  send : string → string → Completion (option string);
  eval : string → Completion Value
}.

Definition getPage (window : Window) (url : string) (execute : Value)
    : Completion Value :=
  if XMLHttpRequest window then
    match send window "GET" url with
    | Return responseText =>
        match responseText with
        | Some text =>
            if truthy execute
            then eval window (String.append "(" (String.append text ")"))
            else Return (VStr text)
        | None => Return (VNum (-1))
        end
    | Throw e => Throw e
    end
  else Return (VNum (-1)).



End Page.

(** ** GeoLocation: what the wrapper relays *)

Section GeoLocationFacts.
Import GeoLocation.

Lemma fireEvent_trace (name : string) (args : list Arg) (w : World) :
  trace (fireEvent name args w) = trace w ++ [FireEvent name args].
Proof. reflexivity. Qed.

Lemma fireEvent_me (name : string) (args : list Arg) (w : World) :
  me (fireEvent name args w) = me w.
Proof. reflexivity. Qed.

Lemma loose_eq_true (a b : option Z) : loose_eq a b = true ↔ a = b.
Proof.
  destruct a as [x|], b as [y|]; simpl; try (split; congruence).
  rewrite Z.eqb_eq. split; congruence.
Qed.

(** C3. For every error the provider delivers, fireError fires exactly one
    event, locationerror, whose arguments after the wrapper are the three
    booleans code == TIMEOUT, code == PERMISSION_DENIED and
    code == POSITION_UNAVAILABLE, in this order, and then the provider's
    message, or null when that message is undefined; the wrapper itself is
    left as it was. *)
Theorem fireError_relays_code (error : PositionError.t) (w : World) :
  trace (fireError error w) =
    trace w ++
    [FireEvent "locationerror"
       [AThis (me w);
        AVal (VBool (loose_eq (PositionError.code error)
                              (PositionError.TIMEOUT error)));
        AVal (VBool (loose_eq (PositionError.code error)
                              (PositionError.PERMISSION_DENIED error)));
        AVal (VBool (loose_eq (PositionError.code error)
                              (PositionError.POSITION_UNAVAILABLE error)));
        AVal (match PositionError.message error with
              | VUndefined => VNull
              | m => m
              end)]]
  ∧ me (fireError error w) = me w.
Proof.
  split; [| reflexivity].
  unfold fireError. rewrite fireEvent_trace.
  by destruct (PositionError.message error).
Qed.

Lemma parseOptions_maximumAge (g : GeoLocation.t) :
  parseOptions g !! "maximumAge" = Some (maximumAge g).
Proof.
  unfold parseOptions. destruct (negb _); by simplify_map_eq.
Qed.

Lemma parseOptions_allowHighAccuracy (g : GeoLocation.t) :
  parseOptions g !! "allowHighAccuracy" = Some (allowHighAccuracy g).
Proof.
  unfold parseOptions. destruct (negb _); by simplify_map_eq.
Qed.

Lemma parseOptions_timeout (g : GeoLocation.t) :
  parseOptions g !! "timeout" =
    if strict_eq (timeout g) Infinity then None else Some (timeout g).
Proof.
  unfold parseOptions. destruct (strict_eq _ _); by simplify_map_eq.
Qed.

(** C4. For every GeoLocation instance, the object parseOptions returns
    has maximumAge and allowHighAccuracy equal to the instance's settings,
    and it has a timeout property exactly when the instance's timeout is
    not Infinity (timeout !== Infinity), in which case that property is the
    instance's timeout. *)
Theorem parseOptions_translation (g : GeoLocation.t) :
  parseOptions g !! "maximumAge" = Some (maximumAge g)
  ∧ parseOptions g !! "allowHighAccuracy" = Some (allowHighAccuracy g)
  ∧ (is_Some (parseOptions g !! "timeout")
     ↔ strict_eq (timeout g) Infinity = false)
  ∧ (∀ v, parseOptions g !! "timeout" = Some v → v = timeout g).
Proof.
  split; [apply parseOptions_maximumAge |].
  split; [apply parseOptions_allowHighAccuracy |].
  rewrite parseOptions_timeout.
  destruct (strict_eq (timeout g) Infinity); split.
  - split; [intros [? ?]; discriminate | discriminate].
  - intros ? ?; discriminate.
  - split; [done | by eexists].
  - by intros ? [= <-].
Qed.

Lemma parseOptions_translation_witness :
  is_Some (parseOptions {| autoUpdate := VBool false; latitude := VNull;
                           longitude := VNull; accuracy := VNull;
                           altitude := VNull; altitudeAccuracy := VNull;
                           heading := VNull; speed := VNull;
                           timestamp := VNull;
                           allowHighAccuracy := VBool true;
                           timeout := VNum 5000; maximumAge := VNum 0 |}
           !! "timeout")
  ∧ ¬ is_Some (parseOptions prototype !! "timeout").
Proof.
  split.
  - apply (proj1 (proj2 (proj2 (parseOptions_translation _)))). reflexivity.
  - intros H.
    apply (proj1 (proj2 (proj2 (parseOptions_translation prototype)))) in H.
    discriminate H.
Defined.

(** C7. Whenever a position is delivered, fireUpdate sets the wrapper's
    timestamp, latitude, longitude, accuracy, altitude and altitudeAccuracy
    to the position's, sets heading and speed to the delivered values or to
    null when the position leaves them undefined, and then fires one
    locationupdate event that carries the wrapper (as updated). *)
Theorem fireUpdate_postcondition (position : Position.t) (w : World) :
  let c := Position.coords position in
  let w' := fireUpdate position w in
  timestamp (me w') = Position.timestamp position
  ∧ latitude (me w') = Position.latitude c
  ∧ longitude (me w') = Position.longitude c
  ∧ accuracy (me w') = Position.accuracy c
  ∧ altitude (me w') = Position.altitude c
  ∧ altitudeAccuracy (me w') = Position.altitudeAccuracy c
  ∧ heading (me w') =
      match Position.heading c with VUndefined => VNull | v => v end
  ∧ speed (me w') =
      match Position.speed c with VUndefined => VNull | v => v end
  ∧ trace w' = trace w ++ [FireEvent "locationupdate" [AThis (me w')]].
Proof.
  cbn. repeat split.
  - by destruct (Position.heading (Position.coords position)).
  - by destruct (Position.speed (Position.coords position)).
Qed.






(** A platform that supports geolocation and whose provider raises
    undefined when it is invoked. *)
Definition throwing_undefined : Platform := {|
  supports_GeoLocation := true;
  getCurrentPosition := λ _, Throw (Raised VUndefined);
  error_message := λ _, VUndefined
|}.

(** C5, on the code.  When invoking the provider raises undefined, the call
    of updateLocation returns with a timer pending, and the timer's
    function, which reads e.message before it calls failFunction, raises a
    TypeError: no locationerror (nor any other) event is fired and the
    callback that was supplied is not called. *)
Theorem updateLocation_thrown_undefined (answer : Answer) :
  let w := {| me := prototype; trace := [] |} in
  let called := updateLocation throwing_undefined (Some 7%positive)
                  VUndefined None w in
  called = (w, Timer {| callback := Some 7%positive; scope := VUndefined |}
                     (Some (Raised VUndefined)))
  ∧ settle throwing_undefined answer (snd called) w = Throw TypeError.
Proof. by split. Qed.

(** A one-shot acquisition with a callback, on a device that supports
    geolocation and reports a timeout (code 3). *)
Example updateLocation_timeout :
  let env := {| supports_GeoLocation := true;
                getCurrentPosition := λ _, Return tt;
                error_message := λ _, VUndefined |} in
  let error := {| PositionError.code := Some 3%Z;
                  PositionError.TIMEOUT := Some 3%Z;
                  PositionError.PERMISSION_DENIED := Some 1%Z;
                  PositionError.POSITION_UNAVAILABLE := Some 2%Z;
                  PositionError.message := VUndefined |} in
  let w := {| me := prototype; trace := [] |} in
  let p := snd (updateLocation env (Some 7%positive) VUndefined None w) in
  settle env (Reports (Some error)) p w =
    Return
      {| me := prototype;
         trace :=
           [FireEvent "locationerror"
              [AThis prototype; AVal (VBool true); AVal (VBool false);
               AVal (VBool false); AVal VNull];
            Call 7 (AThis prototype) [AVal VNull; AThis prototype];
            FireEvent "update" [AVal (VBool false); AThis prototype]] |}.
Proof. reflexivity. Qed.

End GeoLocationFacts.

(** ** Stateful: dirty and modified-field tracking *)

Section StatefulFacts.
Import Stateful.

Variable fields : option (list Field).

(** A property of the object that a method body keeps, whether it returns
    or raises. *)
Definition preserves {A : Type} (P : World → Prop) (m : M A) : Prop :=
  ∀ w, P w → P (snd (m w)).

Lemma preserves_ret {A : Type} (P : World → Prop) (a : A) :
  preserves P (ret a).
Proof. by intros w. Qed.

Lemma preserves_throw {A : Type} (P : World → Prop) (e : Exception) :
  preserves P (throw (A := A) e).
Proof. by intros w. Qed.

Lemma preserves_bind {A B : Type} (P : World → Prop) (m : M A)
    (k : A → M B) :
  preserves P m → (∀ a, preserves P (k a)) → preserves P (bind m k).
Proof.
  intros Hm Hk w Hw. unfold bind.
  specialize (Hm w Hw). destruct (m w) as [[a|e] w']; simpl in *.
  - by apply Hk.
  - done.
Qed.

(** The value set stores: the converted one when the field has a convert
    function. *)
Definition stored (fieldName : string) (value : Value) (r : t) : Value :=
  match fields with
  | Some fs =>
      match item fs fieldName with
      | Some {| convert := Some c |} => convert_fn c value r
      | _ => value
      end
  | None => value
  end.

(** set with a name and a value always returns; it writes the bag and the
    dirty flag and nothing else of the record. *)
Lemma set_value_spec (fieldName : string) (value : Value) (w : World) :
  set_value fields fieldName value w =
    (Return tt,
     {| this := {| editing := editing (this w);
                   dirty := true;
                   modified := modified (this w);
                   data := <[fieldName := stored fieldName value (this w)]>
                             (data (this w)) |};
        notified := if editing (this w) then notified w
                    else notified w ++ [afterEdit] |}).
Proof.
  unfold set_value, bind, read, write, notify, ret, stored. cbn.
  by destruct (editing (this w)).
Qed.

Lemma set_plain_preserves (P : World → Prop) (obj : list (string * Value)) :
  (∀ f v w, P (snd (set_value fields f v w))) →
  ∀ convertFields, preserves P (set_plain fields obj convertFields).
Proof.
  intros Hset. induction obj as [|[key value] rest IH]; intros cf; cbn.
  - apply preserves_ret.
  - apply preserves_bind.
    + unfold fields_get. destruct fields;
        [apply preserves_ret | apply preserves_throw].
    + intros [f|].
      * destruct (differs _ _); [apply IH |].
        apply preserves_bind; [by intros w _ | intros _; apply IH].
      * apply preserves_bind; [by intros w _ | intros _; apply IH].
Qed.

Lemma set_converted_preserves (P : World → Prop) (obj : list (string * Value))
    (convertFields : list string) :
  (∀ f v w, P (snd (set_value fields f v w))) →
  preserves P (set_converted fields obj convertFields).
Proof.
  intros Hset. induction convertFields as [|f rest IH]; cbn.
  - apply preserves_ret.
  - apply preserves_bind; [by intros w _ | intros _; apply IH].
Qed.

Lemma set_preserves (P : World → Prop) (args : SetArgs) :
  (∀ f v w, P (snd (set_value fields f v w))) →
  preserves P (set fields args).
Proof.
  intros Hset. destruct args as [obj | f v]; cbn.
  - destruct (shadowed (own obj "hasOwnProperty"));
      [apply preserves_throw |].
    apply preserves_bind; [by apply set_plain_preserves |].
    intros cf. by apply set_converted_preserves.
  - by intros w _.
Qed.

Lemma each_modified_dirty (fs : list Field) :
  preserves (λ w, dirty (this w) = true) (each_modified fs).
Proof.
  induction fs as [|field rest IH]; cbn.
  - apply preserves_ret.
  - intros w Hw. unfold bind, read. cbn.
    destruct (modified (this w)) as [m|]; cbn; [| done].
    by apply IH.
Qed.

Lemma setDirty_dirty (w : World) :
  dirty (this (snd (setDirty fields w))) = true.
Proof.
  unfold setDirty, bind, read, write. cbn.
  destruct (modified (this w)) as [m|]; cbn;
    (destruct fields as [fs|]; cbn; [by apply each_modified_dirty | done]).
Qed.

Lemma dirty_modified_implies_dirty (r : t) :
  dirty r = true → modified_implies_dirty r.
Proof. by intros H m _ _. Qed.

Lemma deleted_modified_implies_dirty (r : t) :
  modified r = None → modified_implies_dirty r.
Proof. intros H m Hm. congruence. Qed.

Lemma commit_spec (silent : Value) (w : World) :
  commit silent w =
    (Return tt,
     {| this := {| editing := false; dirty := false; modified := None;
                   data := data (this w) |};
        notified := if strict_eq silent (VBool true) then notified w
                    else notified w ++ [afterCommit] |}).
Proof.
  unfold commit, bind, read, write, notify, ret. cbn.
  by destruct (strict_eq silent (VBool true)).
Qed.

Lemma reject_spec (silent : Value) (w : World) :
  match modified (this w) with
  | Some m => shadowed (m !! "hasOwnProperty") = false
  | None => True
  end →
  reject silent w =
    (Return tt,
     {| this := {| editing := false; dirty := false; modified := None;
                   data := match modified (this w) with
                           | Some m => restore m (data (this w))
                           | None => data (this w)
                           end |};
        notified := if strict_eq silent (VBool true) then notified w
                    else notified w ++ [afterReject] |}).
Proof.
  intros H. unfold reject, bind, read, write, notify, ret. cbn.
  destruct (modified (this w)) as [m|]; [rewrite H |]; cbn;
    by destruct (strict_eq silent (VBool true)).
Qed.

(** reject on a record whose modified map shadows hasOwnProperty raises and
    leaves the record as it is. *)
Lemma reject_shadowed (silent : Value) (w : World) (m : gmap string Value) :
  modified (this w) = Some m →
  shadowed (m !! "hasOwnProperty") = true →
  reject silent w = (Throw TypeError, w).
Proof.
  intros Hm Hs. unfold reject, bind, read, throw. cbn. by rewrite Hm, Hs.
Qed.

(** Whether it returns or raises, reject leaves a record with no modified
    map or the record it found. *)
Lemma reject_cases (silent : Value) (w : World) :
  modified (this (snd (reject silent w))) = None
  ∨ snd (reject silent w) = w.
Proof.
  destruct (modified (this w)) as [m|] eqn:Hm.
  - destruct (shadowed (m !! "hasOwnProperty")) eqn:Hs.
    + right. by rewrite (reject_shadowed silent w m).
    + left. rewrite reject_spec; [done | by rewrite Hm].
  - left. rewrite reject_spec; [done | by rewrite Hm].
Qed.

(** Each call establishes "modified implies dirty", whatever the record
    was before it. *)
Lemma invoke_modified_implies_dirty (m : Method) (w : World) :
  modified_implies_dirty (this w) →
  modified_implies_dirty (this (snd (invoke fields m w))).
Proof.
  destruct m as [args | | silent | silent]; cbn [invoke].
  - apply (set_preserves (λ w, modified_implies_dirty (this w))).
    intros f v w'. apply dirty_modified_implies_dirty.
    by rewrite set_value_spec.
  - intros _. apply dirty_modified_implies_dirty, setDirty_dirty.
  - intros _. rewrite commit_spec. by apply deleted_modified_implies_dirty.
  - intros H. destruct (reject_cases silent w) as [Hr | ->]; [| done].
    by apply deleted_modified_implies_dirty.
Qed.

(** C2. For every record reached from the constructor by any sequence of
    set, setDirty, commit and reject calls (also calls that raise), whenever
    the modified map exists and is not empty, the dirty flag is true. *)
Theorem reachable_modified_implies_dirty (calls : list Method) :
  modified_implies_dirty (this (run fields calls)).
Proof.
  unfold run.
  assert (Hgen : ∀ w, modified_implies_dirty (this w) →
            modified_implies_dirty
              (this (foldl (λ w m, snd (invoke fields m w)) w calls))).
  { induction calls as [|m calls IH]; intros w Hw; cbn; [done |].
    by apply IH, invoke_modified_implies_dirty. }
  apply Hgen. intros m [= <-] Hne. by destruct Hne.
Qed.

(** The invariant is not empty talk: after setDirty on a record with one
    field, the modified map has an entry and the record is dirty. *)
Example setDirty_records_fields :
  let fs := Some [{| name := "name"; convert := None; type_convert := None |}] in
  let r := this (run fs [call_set (SetField "name" (VStr "Ann")); call_setDirty]) in
  isModified "name" r = true ∧ dirty r = true.
Proof. by vm_compute. Qed.

(** set with a name and a value leaves the modified map as it is. *)
Lemma set_value_modified (fieldName : string) (value : Value) (w : World) :
  modified (this (snd (set_value fields fieldName value w)))
  = modified (this w).
Proof. by rewrite set_value_spec. Qed.

Lemma set_value_isModified (fieldName f : string) (value : Value)
    (w : World) :
  isModified f (this (snd (set_value fields fieldName value w)))
  = isModified f (this w).
Proof. unfold isModified. by rewrite set_value_modified. Qed.

(** What the loop of reject leaves in the bag, property by property. *)
Lemma restore_lookup (m bag : gmap string Value) (f : string) :
  restore m bag !! f =
    match m !! f with
    | Some original => if is_function original then bag !! f else Some original
    | None => bag !! f
    end.
Proof.
  unfold restore.
  apply (map_fold_weak_ind (λ (r : gmap string Value) (m : gmap string Value),
           r !! f = match m !! f with
                    | Some original =>
                        if is_function original then bag !! f else Some original
                    | None => bag !! f
                    end)).
  - by rewrite lookup_empty.
  - intros i x m' r Hi IH. destruct (decide (i = f)) as [-> | Hne].
    + rewrite lookup_insert_eq, Hi in *.
      destruct (is_function x); cbn; [done | by rewrite lookup_insert_eq].
    + rewrite lookup_insert_ne by done.
      destruct (is_function x); cbn; [done | by rewrite lookup_insert_ne].
Qed.

(** C6. Setting any single field returns with the dirty flag true, and
    commit(silent), whatever silent is, returns with dirty and editing false
    and with isModified(f) false for every field name f. *)
Theorem dirty_until_commit (fieldName : string) (value silent : Value)
    (w : World) :
  (fst (set fields (SetField fieldName value) w) = Return tt
   ∧ dirty (this (snd (set fields (SetField fieldName value) w))) = true)
  ∧ (fst (commit silent w) = Return tt
     ∧ dirty (this (snd (commit silent w))) = false
     ∧ editing (this (snd (commit silent w))) = false
     ∧ ∀ f, isModified f (this (snd (commit silent w))) = false).
Proof.
  cbn [set]. rewrite set_value_spec, commit_spec. by cbn.
Qed.

(** C8. commit(silent) leaves every entry of the data bag as it was: of
    the record's properties it writes dirty, editing and modified only. *)
Theorem commit_frame (silent : Value) (w : World) :
  data (this (snd (commit silent w))) = data (this w)
  ∧ ∀ f, get f (this (snd (commit silent w))) = get f (this w).
Proof. by rewrite commit_spec. Qed.

(** The keys of a map are names Object.prototype does not define. *)
Definition ordinary_keys (m : gmap string Value) : Prop :=
  map_Forall (λ k _, ordinary k = true) m.

Lemma ordinary_keys_unshadowed (m : gmap string Value) :
  ordinary_keys m → shadowed (m !! "hasOwnProperty") = false.
Proof.
  intros H. destruct (m !! "hasOwnProperty") as [v|] eqn:E; [| done].
  specialize (H _ _ E). discriminate H.
Qed.

Lemma reject_spec_ordinary (silent : Value) (w : World) :
  (∀ m, modified (this w) = Some m → ordinary_keys m) →
  reject silent w =
    (Return tt,
     {| this := {| editing := false; dirty := false; modified := None;
                   data := match modified (this w) with
                           | Some m => restore m (data (this w))
                           | None => data (this w)
                           end |};
        notified := if strict_eq silent (VBool true) then notified w
                    else notified w ++ [afterReject] |}).
Proof.
  intros H. apply reject_spec.
  destruct (modified (this w)) as [m|]; [| done].
  by apply ordinary_keys_unshadowed, H.
Qed.

(** X20. On a record whose modified map has only keys that Object.prototype
    does not define, reject returns; it writes back into the data bag every
    entry of the map whose recorded value is not a function, and leaves the
    bag's value as it is for every field whose recorded value is a function
    and for every field the map does not record; afterwards dirty and
    editing are false and the modified map is deleted. *)
Theorem reject_restores_recorded (silent : Value) (w : World) :
  (∀ m, modified (this w) = Some m → ordinary_keys m) →
  let w' := snd (reject silent w) in
  fst (reject silent w) = Return tt
  ∧ (∀ m f original,
       modified (this w) = Some m → m !! f = Some original →
       data (this w') !! f =
         if is_function original then data (this w) !! f else Some original)
  ∧ (∀ m f, modified (this w) = Some m → m !! f = None →
       data (this w') !! f = data (this w) !! f)
  ∧ (modified (this w) = None → data (this w') = data (this w))
  ∧ dirty (this w') = false
  ∧ editing (this w') = false
  ∧ modified (this w') = None.
Proof.
  intros Hord. cbn zeta. rewrite reject_spec_ordinary by done. cbn.
  split; [done |]. split; [| split; [| split; [| done]]].
  - intros m f original -> Hf. by rewrite restore_lookup, Hf.
  - intros m f -> Hf. by rewrite restore_lookup, Hf.
  - by intros ->.
Qed.

(** A record in an edit whose modified map records a string for "a" and a
    function for "b". *)
Definition edited : World := {|
  this := {| editing := true; dirty := true;
             modified := Some (<["a" := VStr "old"]> (<["b" := VFun 1]> ∅));
             data := <["a" := VStr "new"]> (<["b" := VStr "kept"]> ∅) |};
  notified := []
|}.

Lemma edited_ordinary :
  ∀ m, modified (this edited) = Some m → ordinary_keys m.
Proof.
  intros m [= <-]. unfold ordinary_keys.
  apply map_Forall_insert_2; [reflexivity |].
  apply map_Forall_insert_2; [reflexivity |].
  apply map_Forall_empty.
Qed.

Lemma reject_restores_recorded_witness :
  data (this (snd (reject VUndefined edited))) !! "a" = Some (VStr "old")
  ∧ data (this (snd (reject VUndefined edited))) !! "b" = Some (VStr "kept").
Proof.
  split.
  - apply (proj1 (proj2 (reject_restores_recorded VUndefined edited
                           edited_ordinary))
             (<["a" := VStr "old"]> (<["b" := VFun 1]> ∅)) "a" (VStr "old"));
      reflexivity.
  - apply (proj1 (proj2 (reject_restores_recorded VUndefined edited
                           edited_ordinary))
             (<["a" := VStr "old"]> (<["b" := VFun 1]> ∅)) "b" (VFun 1));
      reflexivity.
Defined.

End StatefulFacts.

(** set with an object sets the fields that have a convert function of their
    own last: "full", computed from "first", sees the "first" of the same
    call although the object lists it later. *)
Example set_object_converts_last :
  let full_name := {| Stateful.ref := 1;
                      Stateful.convert_fn := λ _ r, Stateful.get "first" r |} in
  let fs := Some [{| Stateful.name := "full";
                     Stateful.convert := Some full_name;
                     Stateful.type_convert := None |};
                  {| Stateful.name := "first";
                     Stateful.convert := None;
                     Stateful.type_convert := None |}] in
  let w := snd (Stateful.set fs
                  (Stateful.SetObject [("full", VNull); ("first", VStr "Ann")])
                  Stateful.constructor) in
  Stateful.get "full" (Stateful.this w) = VStr "Ann"
  ∧ Stateful.get "first" (Stateful.this w) = VStr "Ann"
  ∧ Stateful.notified w = [Stateful.afterEdit; Stateful.afterEdit]
  ∧ Stateful.isModified "first" (Stateful.this w) = false.
Proof. by vm_compute. Qed.

(** Without a fields collection, set with an object raises at its first
    property and setDirty raises after it marked the record dirty. *)
Example no_fields_raises :
  fst (Stateful.set None (Stateful.SetObject [("first", VStr "Ann")])
         Stateful.constructor) = Throw TypeError
  ∧ Stateful.setDirty None Stateful.constructor =
      (Throw TypeError,
       {| Stateful.this := {| Stateful.editing := false;
                              Stateful.dirty := true;
                              Stateful.modified := Some ∅;
                              Stateful.data := ∅ |};
          Stateful.notified := [] |}).
Proof. by vm_compute. Qed.

(** C1, on the code.  On a new record without a fields collection,
    set("name", "Ann") outside an edit returns and stores the value, but
    "name" is not recorded in the modified map: isModified("name") is false,
    and after reject() the bag still holds "Ann", not the value it had
    before the set (undefined). *)
Theorem set_does_not_record_original :
  let w0 := Stateful.constructor in
  let w1 := snd (Stateful.set None (Stateful.SetField "name" (VStr "Ann")) w0) in
  let w2 := snd (Stateful.reject VUndefined w1) in
  Stateful.editing (Stateful.this w0) = false
  ∧ Stateful.get "name" (Stateful.this w0) = VUndefined
  ∧ Stateful.get "name" (Stateful.this w1) = VStr "Ann"
  ∧ Stateful.isModified "name" (Stateful.this w1) = false
  ∧ Stateful.get "name" (Stateful.this w2) = VStr "Ann".
Proof.
  cbn zeta. cbn [Stateful.set].
  rewrite set_value_spec. rewrite reject_spec by done. cbn.
  unfold Stateful.get, Stateful.restore. cbn.
  rewrite map_fold_empty. by rewrite lookup_insert_eq.
Qed.

(** A fields collection with one field, named hasOwnProperty. *)
Definition shadowing_fields : list Stateful.Field :=
  [{| Stateful.name := "hasOwnProperty"; Stateful.convert := None;
      Stateful.type_convert := None |}].

(** C9, on the code.  On a record whose class has a field named
    hasOwnProperty, after set("hasOwnProperty", "x") and setDirty() the
    modified map records "x" under that name; reject() then raises a
    TypeError in the first round of its loop and leaves the record as it
    was: still dirty, the modified map not deleted, nothing written back. *)
Theorem reject_raises_on_recorded_hasOwnProperty :
  let w := Stateful.run (Some shadowing_fields)
             [Stateful.call_set (Stateful.SetField "hasOwnProperty" (VStr "x"));
              Stateful.call_setDirty] in
  Stateful.modified (Stateful.this w) = Some {["hasOwnProperty" := VStr "x"]}
  ∧ Stateful.dirty (Stateful.this w) = true
  ∧ Stateful.reject VUndefined w = (Throw TypeError, w).
Proof.
  cbn zeta. split; [by vm_compute |]. split; [by vm_compute |].
  eapply reject_shadowed; by vm_compute.
Qed.

(** ** getPage: the failure sentinel *)

Section PageFacts.
Import Page.

(** C10. For every url, getPage returns -1 and does not raise when
    XMLHttpRequest is unavailable and when the request leaves a null
    response text; when the request leaves a response text and execute is
    falsy, it returns that text as it is. *)
Theorem getPage_sentinel (window : Window) (url : string) (execute : Value) :
  (XMLHttpRequest window = false →
     getPage window url execute = Return (VNum (-1)))
  ∧ (XMLHttpRequest window = true →
     send window "GET" url = Return None →
     getPage window url execute = Return (VNum (-1)))
  ∧ (∀ text,
       XMLHttpRequest window = true →
       send window "GET" url = Return (Some text) →
       truthy execute = false →
       getPage window url execute = Return (VStr text)).
Proof.
  unfold getPage. split; [| split].
  - by intros ->.
  - by intros -> ->.
  - by intros text -> -> ->.
Qed.

(** A browser without XMLHttpRequest. *)
Definition no_xhr : Window := {|
  XMLHttpRequest := false;
  send := λ _ _, Throw TypeError;
  eval := λ _, Throw TypeError
|}.

(** A browser whose requests leave the given response text. *)
Definition answering (responseText : option string) : Window := {|
  XMLHttpRequest := true;
  send := λ _ _, Return responseText;
  eval := λ _, Throw TypeError
|}.

Lemma getPage_sentinel_witness :
  getPage no_xhr "/app/Settings/do_sync" (VBool false) = Return (VNum (-1))
  ∧ getPage (answering None) "/app/Settings/do_sync" (VBool false)
    = Return (VNum (-1))
  ∧ getPage (answering (Some "ok")) "/app/Settings/do_sync" (VBool false)
    = Return (VStr "ok").
Proof.
  split; [| split].
  - apply (proj1 (getPage_sentinel no_xhr "/app/Settings/do_sync"
                    (VBool false))).
    reflexivity.
  - apply (proj1 (proj2 (getPage_sentinel (answering None)
                           "/app/Settings/do_sync" (VBool false))));
      reflexivity.
  - apply (proj2 (proj2 (getPage_sentinel (answering (Some "ok"))
                           "/app/Settings/do_sync" (VBool false))));
      reflexivity.
Defined.

End PageFacts.

(** ** GeoLocation: monitoring, option setters and getLocation *)

Section MonitoringFacts.
Import GeoLocation.

Lemma strict_eq_null (v : Value) : strict_eq v VNull = true ↔ v = VNull.
Proof. destruct v; cbn; split; congruence. Qed.

Lemma watches_app (a b c : Value) (l1 l2 : list ProviderCall) :
  watches a l1 b → watches b l2 c → watches a (l1 ++ l2) c.
Proof.
  induction 1 as [held | held rest final Hne _ IH | options id rest final _ IH
                  | options e rest final _ IH]; intros H2; cbn.
  - done.
  - apply watches_clear; [done | by apply IH].
  - apply watches_start. by apply IH.
  - apply watches_raise. by apply IH.
Qed.

(** The first step of setAutoUpdate: the watch that runs is cleared. *)
Definition cleared (k : Tracker) : Tracker :=
  if negb (strict_eq (watchOperation k) VNull)
  then {| world := world k; watchOperation := VNull;
          provider_calls := provider_calls k ++ [ClearWatch (watchOperation k)] |}
  else k.

Lemma cleared_watchOperation (k : Tracker) : watchOperation (cleared k) = VNull.
Proof.
  unfold cleared. destruct (strict_eq (watchOperation k) VNull) eqn:E; cbn.
  - by apply strict_eq_null.
  - done.
Qed.

Lemma cleared_world (k : Tracker) : world (cleared k) = world k.
Proof. unfold cleared. by destruct (negb _). Qed.

Lemma cleared_watches (held : Value) (k : Tracker) :
  watches held (provider_calls k) (watchOperation k) →
  watches held (provider_calls (cleared k)) VNull.
Proof.
  intros H. unfold cleared.
  destruct (strict_eq (watchOperation k) VNull) eqn:E; cbn.
  - apply strict_eq_null in E. by rewrite E in H.
  - eapply watches_app; [exact H |].
    apply watches_clear; [done | apply watches_nil].
Qed.

(** The wrapper after the catch clause of setAutoUpdate set autoUpdate to
    false. *)
Definition caught (k : Tracker) : World :=
  {| me := assign_autoUpdate (VBool false) (me (world k));
     trace := trace (world k) |}.

(** setAutoUpdate, case by case. *)
Lemma setAutoUpdate_cases (env : Device) (v : Value) (k : Tracker) :
  let c := cleared k in
  let options := parseOptions (me (world k)) in
  setAutoUpdate env v k =
    if negb (truthy v) then (c, Return true)
    else if negb (supports_GeoLocation (platform env)) then
      (with_world
         (fireEvent "locationerror"
            [AThis (me (world k)); AVal (VBool false); AVal (VBool false);
             AVal (VBool true); AVal VNull] (world k)) c,
       Return false)
    else
      match watchPosition env options with
      | Return id =>
          ({| world := world k; watchOperation := id;
              provider_calls :=
                provider_calls c ++ [WatchPosition options (Return id)] |},
           Return true)
      | Throw e =>
          match message_of (platform env) e with
          | Return message =>
              ({| world :=
                    fireEvent "locationerror"
                      [AThis (me (caught k)); AVal (VBool false);
                       AVal (VBool false); AVal (VBool true); AVal message]
                      (caught k);
                  watchOperation := VNull;
                  provider_calls :=
                    provider_calls c ++ [WatchPosition options (Throw e)] |},
               Return false)
          | Throw x =>
              ({| world := caught k;
                  watchOperation := VNull;
                  provider_calls :=
                    provider_calls c ++ [WatchPosition options (Throw e)] |},
               Throw x)
          end
      end.
Proof.
  cbn zeta. unfold setAutoUpdate. fold (cleared k).
  rewrite !cleared_world, !cleared_watchOperation.
  destruct (negb (truthy v)); [done |].
  destruct (negb (supports_GeoLocation (platform env))); [done |].
  destruct (watchPosition env (parseOptions (me (world k)))) as [id|e];
    [done |].
  by destruct (message_of (platform env) e).
Qed.

Lemma setAutoUpdate_watches (held : Value) (env : Device) (v : Value)
    (k : Tracker) :
  watches held (provider_calls k) (watchOperation k) →
  watches held (provider_calls (fst (setAutoUpdate env v k)))
               (watchOperation (fst (setAutoUpdate env v k))).
Proof.
  intros H. apply cleared_watches in H.
  rewrite setAutoUpdate_cases. cbn zeta.
  destruct (negb (truthy v)); cbn; [by rewrite cleared_watchOperation |].
  destruct (negb (supports_GeoLocation (platform env))); cbn;
    [by rewrite cleared_watchOperation |].
  destruct (watchPosition env (parseOptions (me (world k)))) as [id | e]; cbn.
  - eapply watches_app; [exact H |]. apply watches_start, watches_nil.
  - destruct (message_of (platform env) e); cbn;
      (eapply watches_app; [exact H |]); apply watches_raise, watches_nil.
Qed.

Lemma step_watches (held : Value) (k : Tracker) (op : Op) :
  watches held (provider_calls k) (watchOperation k) →
  watches held (provider_calls (step k op)) (watchOperation (step k op)).
Proof.
  intros H. destruct op as [env v | env v | env v | env v | d]; cbn [step].
  - by apply setAutoUpdate_watches.
  - unfold setMaximumAge. by apply setAutoUpdate_watches.
  - unfold setTimeout. by apply setAutoUpdate_watches.
  - unfold setAllowHighAccuracy. by apply setAutoUpdate_watches.
  - by destruct d.
Qed.

(** X1. Whatever methods are called on a wrapper and whatever its watch
    delivers, the wrapper starts a watch only while it holds none, clears
    only the watch it holds, and its watchOperation is the watch the
    provider was left with. *)
Theorem one_watch_at_a_time (w : World) (ops : list Op) :
  let k := foldl step (unwatched w) ops in
  watches VNull (provider_calls k) (watchOperation k).
Proof.
  cbn zeta.
  assert (Hgen : ∀ k, watches VNull (provider_calls k) (watchOperation k) →
            watches VNull (provider_calls (foldl step k ops))
                          (watchOperation (foldl step k ops))).
  { induction ops as [|op ops IH]; intros k Hk; cbn; [done |].
    by apply IH, step_watches. }
  apply Hgen. apply watches_nil.
Qed.


Lemma setAutoUpdate_falsy (env : Device) (v : Value) (k : Tracker) :
  truthy v = false →
  setAutoUpdate env v k =
    ({| world := world k;
        watchOperation := VNull;
        provider_calls :=
          provider_calls k ++
          (if strict_eq (watchOperation k) VNull then []
           else [ClearWatch (watchOperation k)]) |},
     Return true).
Proof.
  intros Hv. rewrite setAutoUpdate_cases. cbn zeta. rewrite Hv. cbn.
  unfold cleared. destruct (strict_eq (watchOperation k) VNull) eqn:E; cbn.
  - apply strict_eq_null in E. destruct k as [w op calls]; cbn in *.
    by rewrite E, app_nil_r.
  - done.
Qed.

(** X3. setAutoUpdate with a falsy argument stops monitoring on any device:
    it returns true, fires nothing, leaves the wrapper as it was with no
    watch held, and its only call on the provider is the clearWatch of the
    watch it held, if it held one. *)
Theorem setAutoUpdate_stop (env : Device) (v : Value) (k : Tracker) :
  truthy v = false →
  fst (setAutoUpdate env v k) =
    {| world := world k;
       watchOperation := VNull;
       provider_calls :=
         provider_calls k ++
         (if strict_eq (watchOperation k) VNull then []
          else [ClearWatch (watchOperation k)]) |}
  ∧ snd (setAutoUpdate env v k) = Return true.
Proof. intros Hv. by rewrite setAutoUpdate_falsy. Qed.

(** A device that supports geolocation and whose provider starts watch
    number 1. *)
Definition watching_device : Device := {|
  platform := {| supports_GeoLocation := true;
                 getCurrentPosition := λ _, Return tt;
                 error_message := λ _, VUndefined |};
  watchPosition := λ _, Return (VNum 1)
|}.

(** A wrapper that holds watch number 1. *)
Definition watching : Tracker := {|
  world := {| me := prototype; trace := [] |};
  watchOperation := VNum 1;
  provider_calls := [WatchPosition (parseOptions prototype) (Return (VNum 1))]
|}.

Lemma setAutoUpdate_stop_witness :
  fst (setAutoUpdate watching_device (VBool false) watching) =
    {| world := world watching;
       watchOperation := VNull;
       provider_calls :=
         [WatchPosition (parseOptions prototype) (Return (VNum 1));
          ClearWatch (VNum 1)] |}
  ∧ snd (setAutoUpdate watching_device (VBool false) watching) = Return true.
Proof.
  apply (setAutoUpdate_stop watching_device (VBool false) watching).
  reflexivity.
Defined.

(** An option setter, as the assignment it makes followed by
    setAutoUpdate(this.autoUpdate). *)
Definition assigned (f : GeoLocation.t → GeoLocation.t) (k : Tracker)
    : Tracker :=
  with_world {| me := f (me (world k)); trace := trace (world k) |} k.

Lemma restart_last_call (env : Device) (a : Value) (k : Tracker) :
  truthy a = true →
  supports_GeoLocation (platform env) = true →
  ∃ r, last (provider_calls (fst (setAutoUpdate env a k))) =
         Some (WatchPosition (parseOptions (me (world k))) r).
Proof.
  intros Ha Hs. rewrite setAutoUpdate_cases. cbn zeta. rewrite Ha, Hs. cbn.
  destruct (watchPosition env (parseOptions (me (world k)))) as [id | e];
    [| destruct (message_of (platform env) e)];
    cbn; eexists; apply last_snoc.
Qed.

(** X4. On a device that supports geolocation, each option setter of a
    wrapper whose autoUpdate is truthy ends with a watchPosition call whose
    options carry the value just set: maximumAge and allowHighAccuracy as
    given, timeout as given unless it is Infinity, which is left out. *)
Theorem setters_pass_new_option (env : Device) (v : Value) (k : Tracker) :
  truthy (autoUpdate (me (world k))) = true →
  supports_GeoLocation (platform env) = true →
  (∃ options r,
     last (provider_calls (setMaximumAge env v k))
       = Some (WatchPosition options r)
     ∧ options !! "maximumAge" = Some v)
  ∧ (∃ options r,
       last (provider_calls (setAllowHighAccuracy env v k))
         = Some (WatchPosition options r)
       ∧ options !! "allowHighAccuracy" = Some v)
  ∧ (∃ options r,
       last (provider_calls (setTimeout env v k))
         = Some (WatchPosition options r)
       ∧ options !! "timeout" = if strict_eq v Infinity then None else Some v).
Proof.
  intros Ha Hs. split; [| split].
  - destruct (restart_last_call env (autoUpdate (me (world k)))
                (assigned (assign_maximumAge v) k) Ha Hs) as [r Hr].
    eexists _, r. split; [exact Hr |]. apply parseOptions_maximumAge.
  - destruct (restart_last_call env (autoUpdate (me (world k)))
                (assigned (assign_allowHighAccuracy v) k) Ha Hs) as [r Hr].
    eexists _, r. split; [exact Hr |]. apply parseOptions_allowHighAccuracy.
  - destruct (restart_last_call env (autoUpdate (me (world k)))
                (assigned (assign_timeout v) k) Ha Hs) as [r Hr].
    eexists _, r. split; [exact Hr |]. apply parseOptions_timeout.
Qed.

Lemma setters_pass_new_option_witness :
  ∃ options r,
    last (provider_calls (setTimeout watching_device (VNum 5000) watching))
      = Some (WatchPosition options r)
    ∧ options !! "timeout" = Some (VNum 5000).
Proof.
  apply (proj2 (proj2 (setters_pass_new_option watching_device (VNum 5000)
                         watching eq_refl eq_refl))).
Defined.

(** setAutoUpdate leaves the autoUpdate property falsy when it was. *)
Lemma setAutoUpdate_keeps_falsy (env : Device) (v : Value) (k : Tracker) :
  truthy (autoUpdate (me (world k))) = false →
  truthy (autoUpdate (me (world (fst (setAutoUpdate env v k))))) = false.
Proof.
  intros H. rewrite setAutoUpdate_cases. cbn zeta.
  destruct (negb (truthy v)); cbn; [by rewrite cleared_world |].
  destruct (negb (supports_GeoLocation (platform env))); cbn; [done |].
  destruct (watchPosition env (parseOptions (me (world k)))) as [id | e];
    [done |].
  by destruct (message_of (platform env) e).
Qed.

Lemma stop_after_assign (env : Device) (a : Value) (k : Tracker) :
  truthy a = false →
  watchOperation (fst (setAutoUpdate env a k)) = VNull.
Proof. intros Ha. by rewrite setAutoUpdate_falsy. Qed.

(** X5. The option setters restart or stop monitoring by the autoUpdate
    property, which setAutoUpdate does not record.  On a wrapper whose
    autoUpdate is falsy, a setter called after setAutoUpdate(true) leaves no
    watch; on a wrapper whose autoUpdate is truthy, setMaximumAge called
    after setAutoUpdate(false) holds the watch the provider starts. *)
Theorem setters_follow_autoUpdate_property (env env' : Device) (v : Value)
    (k : Tracker) :
  (truthy (autoUpdate (me (world k))) = false →
     let on := fst (setAutoUpdate env (VBool true) k) in
     watchOperation (setMaximumAge env' v on) = VNull
     ∧ watchOperation (setTimeout env' v on) = VNull
     ∧ watchOperation (setAllowHighAccuracy env' v on) = VNull)
  ∧ (∀ id,
       truthy (autoUpdate (me (world k))) = true →
       supports_GeoLocation (platform env') = true →
       watchPosition env'
         (parseOptions (assign_maximumAge v (me (world k)))) = Return id →
       let off := fst (setAutoUpdate env (VBool false) k) in
       watchOperation off = VNull
       ∧ watchOperation (setMaximumAge env' v off) = id).
Proof.
  split.
  - intros Hf on.
    pose proof (setAutoUpdate_keeps_falsy env (VBool true) k Hf) as Hon.
    fold on in Hon.
    unfold setMaximumAge, setTimeout, setAllowHighAccuracy.
    repeat split; by apply stop_after_assign.
  - intros id Ha Hs Hw off. subst off.
    rewrite (setAutoUpdate_falsy env (VBool false) k eq_refl). cbn [fst].
    split; [done |].
    unfold setMaximumAge. rewrite setAutoUpdate_cases. cbn.
    rewrite Ha, Hs. cbn. unfold cleared. cbn. by rewrite Hw.
Qed.

(** A wrapper configured with autoUpdate false. *)
Definition manual : Tracker :=
  unwatched {| me := assign_autoUpdate (VBool false) prototype; trace := [] |}.

Lemma setters_follow_autoUpdate_property_witness :
  watchOperation (fst (setAutoUpdate watching_device (VBool true) manual))
    = VNum 1
  ∧ watchOperation
      (setMaximumAge watching_device (VNum 60000)
         (fst (setAutoUpdate watching_device (VBool true) manual))) = VNull
  ∧ watchOperation
      (setMaximumAge watching_device (VNum 60000)
         (fst (setAutoUpdate watching_device (VBool false) watching)))
    = VNum 1.
Proof.
  split; [reflexivity | split].
  - apply (proj1 (setters_follow_autoUpdate_property watching_device
                    watching_device (VNum 60000) manual)).
    reflexivity.
  - apply (proj2 (setters_follow_autoUpdate_property watching_device
                    watching_device (VNum 60000) watching) (VNum 1));
      reflexivity.
Defined.

(** How many of the deliveries are positions. *)
Definition located (ds : list Delivery) : nat :=
  length (List.filter (λ d, match d with Located _ => true | Failed _ => false end)
                      ds).

Lemma located_le (ds : list Delivery) : (located ds <= length ds)%nat.
Proof. apply List.filter_length_le. Qed.

Lemma fired_app (name : string) (l1 l2 : list Action) :
  fired name (l1 ++ l2) = fired name l1 + fired name l2.
Proof. unfold fired. by rewrite List.filter_app, length_app. Qed.

(** X6. However many positions and errors a watch delivers, each delivery
    fires exactly one event, a locationupdate for a position and a
    locationerror for an error, and none of them touches the watch held,
    the calls made on the provider, autoUpdate or the options handed to the
    provider. *)
Theorem deliveries_fire_one_event_each (ds : list Delivery) (k : Tracker) :
  let k' := foldl (λ k d, deliver d k) k ds in
  watchOperation k' = watchOperation k
  ∧ provider_calls k' = provider_calls k
  ∧ autoUpdate (me (world k')) = autoUpdate (me (world k))
  ∧ parseOptions (me (world k')) = parseOptions (me (world k))
  ∧ ∃ new,
      trace (world k') = trace (world k) ++ new
      ∧ length new = length ds
      ∧ fired "locationupdate" new = located ds
      ∧ fired "locationerror" new = length ds - located ds.
Proof.
  cbn zeta. revert k. induction ds as [|d ds IH]; intros k.
  - cbn. repeat split; try done. exists []. by rewrite app_nil_r.
  - cbn [foldl]. destruct (IH (deliver d k)) as (H1 & H2 & H3 & H4 & new & H5 & H6 & H7 & H8).
    rewrite H1, H2, H3, H4, H5. clear IH H1 H2 H3 H4 H5.
    destruct d as [position | error]; cbn.
    + repeat split; try done.
      eexists (_ :: new). rewrite <- app_assoc. split; [reflexivity |].
      cbn [length]. rewrite H6. split; [done |].
      change (?x :: new) with ([x] ++ new). rewrite !fired_app, H7, H8.
      unfold located. cbn. split; [done |]. lia.
    + repeat split; try done.
      eexists (_ :: new). rewrite <- app_assoc. split; [reflexivity |].
      cbn [length]. rewrite H6. split; [done |].
      change (?x :: new) with ([x] ++ new). rewrite !fired_app, H7, H8.
      unfold located. cbn. split; [done |].
      pose proof (located_le ds) as Hle. unfold located in Hle. lia.
Qed.

(** X7. After an update whose position has a latitude other than null,
    getLocation with a callback answers from the wrapper: it calls the
    callback once with the updated wrapper, fires no event and leaves
    nothing pending, on any platform. *)
Theorem getLocation_cached_after_update (env : Platform) (cb : positive)
    (scope : Value) (position : Position.t) (w : World) :
  strict_eq (Position.latitude (Position.coords position)) VNull = false →
  let w' := fireUpdate position w in
  getLocation env (Some cb) scope w' =
    Return
      ({| me := me w';
          trace :=
            trace w' ++
            [Call cb (if truthy scope then AVal scope else AThis (me w'))
                  [AThis (me w'); AThis (me w')]] |},
       None).
Proof.
  intros Hlat w'. unfold getLocation. subst w'. cbn. by rewrite Hlat.
Qed.

(** A position as a device delivers it. *)
Definition fix_position : Position.t := {|
  Position.timestamp := VNum 1288000000000;
  Position.coords := {| Position.latitude := VNum 48.5;
                        Position.longitude := VNum 2.25;
                        Position.accuracy := VNum 25;
                        Position.altitude := VNull;
                        Position.altitudeAccuracy := VNull;
                        Position.heading := VUndefined;
                        Position.speed := VUndefined |}
|}.

Lemma getLocation_cached_after_update_witness :
  ∃ w', getLocation (platform watching_device) (Some 3%positive) VUndefined
          (fireUpdate fix_position {| me := prototype; trace := [] |})
        = Return (w', None).
Proof.
  eexists.
  apply (getLocation_cached_after_update (platform watching_device) 3
           VUndefined fix_position {| me := prototype; trace := [] |}).
  reflexivity.
Defined.


End MonitoringFacts.

(** ** Stateful: reading back, set with an object, snapshots *)

Section StatefulMore.
Import Stateful.

Variable fields : option (list Field).

(** The convert function set applies to a field, if any. *)
Definition converter (fieldName : string) : option Converter :=
  match fields with
  | Some fs =>
      match item fs fieldName with
      | Some f => convert f
      | None => None
      end
  | None => None
  end.

Lemma stored_converter (fieldName : string) (value : Value) (r : t) :
  stored fields fieldName value r =
    match converter fieldName with
    | Some c => convert_fn c value r
    | None => value
    end.
Proof.
  unfold stored, converter. destruct fields as [fs|]; [| done].
  destruct (item fs fieldName) as [[n [c|] tc]|]; done.
Qed.

(** X9. For a field name that Object.prototype does not define, after
    set(name, value) get(name) is the value, passed through the field's
    convert function (with the record as it was) when the field has one,
    and get of every other name is what it was. *)
Theorem set_then_get (fieldName : string) (value : Value) (w : World) :
  ordinary fieldName = true →
  let w' := snd (set fields (SetField fieldName value) w) in
  get fieldName (this w') =
    match converter fieldName with
    | Some c => convert_fn c value (this w)
    | None => value
    end
  ∧ ∀ other, other ≠ fieldName → get other (this w') = get other (this w).
Proof.
  intros _. cbn zeta. cbn [set]. rewrite set_value_spec. unfold get. cbn.
  split.
  - by rewrite lookup_insert_eq, stored_converter.
  - intros other Hne. by rewrite lookup_insert_ne.
Qed.


End StatefulMore.

Lemma set_then_get_witness :
  Stateful.get "name"
    (Stateful.this
       (snd (Stateful.set None (Stateful.SetField "name" (VStr "Ann"))
               Stateful.constructor))) = VStr "Ann".
Proof.
  apply (proj1 (set_then_get None "name" (VStr "Ann") Stateful.constructor
                  eq_refl)).
Defined.


Section StatefulObject.
Import Stateful.

(** The fields collection of the record's class. *)
Variable fs : list Field.

(** Whether the first loop of set leaves a property for the second one. *)
Definition deferred (key : string) : bool :=
  match item fs key with
  | Some f => differs (convert f) (type_convert f)
  | None => false
  end.

Lemma set_plain_cons (key : string) (value : Value)
    (rest : list (string * Value)) (cf : list string) (w : World) :
  set_plain (Some fs) ((key, value) :: rest) cf w =
    if deferred key
    then set_plain (Some fs) rest (cf ++ [key]) w
    else set_plain (Some fs) rest cf
           (snd (set_value (Some fs) key value w)).
Proof.
  cbn [set_plain]. unfold bind at 1. unfold fields_get, ret, deferred.
  destruct (item fs key) as [f|].
  - destruct (differs (convert f) (type_convert f)); [done |].
    unfold bind at 1. by rewrite set_value_spec.
  - unfold bind at 1. by rewrite set_value_spec.
Qed.

Lemma set_converted_cons (obj : list (string * Value)) (field : string)
    (rest : list string) (w : World) :
  set_converted (Some fs) obj (field :: rest) w =
    set_converted (Some fs) obj rest
      (snd (set_value (Some fs) field (property obj field) w)).
Proof.
  cbn [set_converted]. unfold bind at 1. by rewrite set_value_spec.
Qed.

(** What [n] calls of set(name, value) do to a record apart from its bag. *)
Definition after_sets (n : nat) (w w' : World) : Prop :=
  editing (this w') = editing (this w)
  ∧ modified (this w') = modified (this w)
  ∧ notified w' =
      notified w ++ (if editing (this w) then [] else replicate n afterEdit)
  ∧ dirty (this w') = (dirty (this w) || negb (Nat.eqb n 0)).

Lemma after_sets_0 (w : World) : after_sets 0 w w.
Proof.
  unfold after_sets. cbn. rewrite orb_false_r.
  destruct (editing (this w)); by rewrite app_nil_r.
Qed.

Lemma after_sets_S (n : nat) (key : string) (value : Value) (w w' : World) :
  after_sets n (snd (set_value (Some fs) key value w)) w' →
  after_sets (S n) w w'.
Proof.
  rewrite set_value_spec. unfold after_sets. cbn.
  intros (He & Hm & Hn & Hd). rewrite He, Hm, Hn, Hd.
  rewrite orb_true_r. repeat split.
  destruct (editing (this w)); [done |]. by rewrite <- app_assoc.
Qed.

Lemma set_plain_sets (obj : list (string * Value)) :
  ∀ (cf : list string) (w : World),
    ∃ cf2 w' n,
      set_plain (Some fs) obj cf w = (Return (cf ++ cf2), w')
      ∧ after_sets n w w'
      ∧ n + length cf2 = length obj.
Proof.
  induction obj as [|[key value] rest IH]; intros cf w.
  - exists [], w, 0. rewrite app_nil_r. split; [done |].
    split; [apply after_sets_0 | done].
  - rewrite set_plain_cons. destruct (deferred key).
    + destruct (IH (cf ++ [key]) w) as (cf2 & w' & n & Heq & Hs & Hl).
      exists (key :: cf2), w', n. rewrite Heq, <- app_assoc.
      split; [done |]. split; [done |]. cbn. lia.
    + destruct (IH cf (snd (set_value (Some fs) key value w)))
        as (cf2 & w' & n & Heq & Hs & Hl).
      exists cf2, w', (S n). rewrite Heq. split; [done |].
      split; [by eapply after_sets_S |]. cbn. lia.
Qed.

Lemma set_converted_sets (obj : list (string * Value)) (cf : list string) :
  ∀ w, ∃ w', set_converted (Some fs) obj cf w = (Return tt, w')
             ∧ after_sets (length cf) w w'.
Proof.
  induction cf as [|field rest IH]; intros w.
  - exists w. split; [done | apply after_sets_0].
  - rewrite set_converted_cons.
    destruct (IH (snd (set_value (Some fs) field (property obj field) w)))
      as (w' & Heq & Hs).
    exists w'. split; [done |]. by eapply after_sets_S.
Qed.

Lemma after_sets_trans (n m : nat) (w1 w2 w3 : World) :
  after_sets n w1 w2 → after_sets m w2 w3 → after_sets (n + m) w1 w3.
Proof.
  intros (He & Hm & Hn & Hd) (He' & Hm' & Hn' & Hd').
  unfold after_sets. rewrite He', He, Hm', Hm, Hn', Hn, Hd', Hd, He.
  repeat split; try done.
  - destruct (editing (this w1)); [by rewrite !app_nil_r |].
    by rewrite <- app_assoc, replicate_add.
  - destruct n, m; cbn; by rewrite ?orb_true_r, ?orb_false_r.
Qed.

(** Every key of the object is a name Object.prototype does not define. *)
Definition ordinary_object (obj : list (string * Value)) : Prop :=
  Forall (λ k, ordinary k = true) obj.*1.

Lemma ordinary_object_unshadowed (obj : list (string * Value)) :
  ordinary_object obj → shadowed (own obj "hasOwnProperty") = false.
Proof.
  unfold ordinary_object, own.
  induction obj as [|[k v] rest IH]; intros H; [done |].
  cbn in H. apply Forall_cons in H as [Hk H]. cbn [List.find fst].
  destruct (String.eqb k "hasOwnProperty") eqn:E.
  - apply String.eqb_eq in E as ->. discriminate Hk.
  - by apply IH.
Qed.

Lemma set_object_after_sets (obj : list (string * Value)) (w : World) :
  shadowed (own obj "hasOwnProperty") = false →
  ∃ w', set (Some fs) (SetObject obj) w = (Return tt, w')
        ∧ after_sets (length obj) w w'.
Proof.
  intros Hs. cbn [set]. rewrite Hs. unfold bind.
  destruct (set_plain_sets obj [] w) as (cf2 & w1 & n & Heq & Hs1 & Hl).
  rewrite Heq. cbn [app].
  destruct (set_converted_sets obj cf2 w1) as (w2 & Heq2 & Hs2).
  exists w2. split; [done |].
  rewrite <- Hl. by eapply after_sets_trans.
Qed.

(** X11. With a fields collection, set with an object whose keys are names
    that Object.prototype does not define always returns.  It leaves
    editing and the modified map as they are, makes the record dirty when
    the object has an own property, and outside an edit it calls afterEdit
    once for every own property of the object (never during an edit). *)
Theorem set_object_notifies_per_property (obj : list (string * Value))
    (w : World) :
  ordinary_object obj →
  let w' := snd (set (Some fs) (SetObject obj) w) in
  fst (set (Some fs) (SetObject obj) w) = Return tt
  ∧ editing (this w') = editing (this w)
  ∧ modified (this w') = modified (this w)
  ∧ dirty (this w') = (dirty (this w) || negb (Nat.eqb (length obj) 0))
  ∧ notified w' =
      notified w ++
      (if editing (this w) then [] else replicate (length obj) afterEdit).
Proof.
  intros Hord. cbn zeta.
  destruct (set_object_after_sets obj w
              (ordinary_object_unshadowed obj Hord)) as (w' & -> & H).
  by destruct H as (He & Hm & Hn & Hd).
Qed.

(** [obj[key]] is the value listed with the key when no key is listed
    twice. *)
Lemma property_elem (obj : list (string * Value)) (key : string) (v : Value) :
  NoDup obj.*1 → (key, v) ∈ obj → property obj key = v.
Proof.
  unfold property. induction obj as [|[k x] rest IH]; intros Hnd Hin.
  - by apply elem_of_nil in Hin.
  - cbn in *. apply NoDup_cons in Hnd as [Hk Hnd].
    apply elem_of_cons in Hin as [[= <- <-] | Hin].
    + by rewrite String.eqb_refl.
    + destruct (String.eqb k key) eqn:E.
      * apply String.eqb_eq in E as ->. destruct Hk.
        apply list_elem_of_fmap. by exists (key, v).
      * by apply IH.
Qed.

(** No field of the collection has a convert function. *)
Definition plain_fields : Prop := ∀ key, converter (Some fs) key = None.

Lemma set_value_plain_data (key : string) (value : Value) (w : World) :
  plain_fields →
  data (this (snd (set_value (Some fs) key value w)))
  = <[key := value]> (data (this w)).
Proof.
  intros Hp. rewrite set_value_spec. cbn [snd this data].
  by rewrite stored_converter, Hp.
Qed.

Lemma set_plain_data (obj : list (string * Value)) :
  plain_fields → NoDup obj.*1 →
  ∀ (cf : list string) (w : World),
    ∃ cf2,
      fst (set_plain (Some fs) obj cf w) = Return (cf ++ cf2)
      ∧ (∀ k, k ∈ cf2 → k ∈ obj.*1)
      ∧ (∀ k v, (k, v) ∈ obj → k ∉ cf2 →
           data (this (snd (set_plain (Some fs) obj cf w))) !! k = Some v)
      ∧ (∀ k, k ∉ obj.*1 →
           data (this (snd (set_plain (Some fs) obj cf w))) !! k
           = data (this w) !! k).
Proof.
  intros Hp. induction obj as [|[key value] rest IH]; intros Hnd cf w.
  - exists []. rewrite app_nil_r. split; [done |].
    split; [intros k Hk; by apply elem_of_nil in Hk |]. split; [| done].
    intros k v Hin. by apply elem_of_nil in Hin.
  - cbn in Hnd. apply NoDup_cons in Hnd as [Hkey Hnd].
    rewrite set_plain_cons. destruct (deferred key).
    + destruct (IH Hnd (cf ++ [key]) w) as (cf2 & Heq & Hsub & Hin & Hout).
      exists (key :: cf2). rewrite Heq, <- app_assoc. split; [done |].
      split; [| split].
      * intros k [-> | Hk]%elem_of_cons; cbn;
          [apply elem_of_cons; by left | apply elem_of_cons; right; by apply Hsub].
      * intros k v Hk Hcf. apply not_elem_of_cons in Hcf as [Hne Hcf].
        apply elem_of_cons in Hk as [[= -> ->] | Hk]; [done |].
        by apply Hin.
      * intros k Hk. cbn in Hk. apply not_elem_of_cons in Hk as [_ Hk].
        by apply Hout.
    + destruct (IH Hnd cf (snd (set_value (Some fs) key value w)))
        as (cf2 & Heq & Hsub & Hin & Hout).
      exists cf2. split; [done |]. split; [| split].
      * intros k Hk. cbn. apply elem_of_cons; right. by apply Hsub.
      * intros k v Hk Hcf.
        apply elem_of_cons in Hk as [[= -> ->] | Hk]; [| by apply Hin].
        rewrite (Hout key Hkey), set_value_plain_data by done.
        by rewrite lookup_insert_eq.
      * intros k Hk. cbn in Hk. apply not_elem_of_cons in Hk as [Hne Hk].
        rewrite (Hout k Hk), set_value_plain_data by done.
        by rewrite lookup_insert_ne.
Qed.

Lemma set_converted_data (obj : list (string * Value)) (cf : list string) :
  plain_fields →
  ∀ (w : World) (k : string),
    data (this (snd (set_converted (Some fs) obj cf w))) !! k =
      if bool_decide (k ∈ cf) then Some (property obj k)
      else data (this w) !! k.
Proof.
  intros Hp. induction cf as [|field rest IH]; intros w k.
  - cbn. by rewrite bool_decide_eq_false_2 by apply not_elem_of_nil.
  - rewrite set_converted_cons, IH, set_value_plain_data by done.
    destruct (decide (k ∈ rest)) as [Hin | Hout].
    + rewrite (bool_decide_eq_true_2 (k ∈ rest)) by done.
      rewrite bool_decide_eq_true_2; [done |].
      apply elem_of_cons. by right.
    + rewrite (bool_decide_eq_false_2 (k ∈ rest)) by done.
      destruct (decide (k = field)) as [-> | Hne].
      * rewrite bool_decide_eq_true_2 by (apply elem_of_cons; by left).
        by rewrite lookup_insert_eq.
      * rewrite bool_decide_eq_false_2.
        -- by rewrite lookup_insert_ne.
        -- intros [? | ?]%elem_of_cons; done.
Qed.

(** X12. With a fields collection none of whose fields has a convert
    function, set with an object whose keys are names that Object.prototype
    does not define (no key twice) stores every own property: afterwards
    get(key) is the object's value for each of its keys, in whichever of the
    two loops the key was set, and get of every other name is what it
    was. *)
Theorem set_object_stores_all (obj : list (string * Value)) (w : World) :
  plain_fields → ordinary_object obj → NoDup obj.*1 →
  let w' := snd (set (Some fs) (SetObject obj) w) in
  (∀ k v, (k, v) ∈ obj → get k (this w') = v)
  ∧ (∀ k, k ∉ obj.*1 → get k (this w') = get k (this w)).
Proof.
  intros Hp Hord Hnd. cbn zeta. cbn [set].
  rewrite (ordinary_object_unshadowed obj Hord). unfold bind.
  destruct (set_plain_data obj Hp Hnd [] w) as (cf2 & Heq & Hsub & Hin & Hout).
  destruct (set_plain_sets obj [] w) as (cf2' & w1 & n & Heq' & _ & _).
  rewrite Heq' in *. cbn [fst snd app] in *. injection Heq as <-.
  unfold get. split.
  - intros k v Hk. rewrite set_converted_data by done.
    destruct (decide (k ∈ cf2')) as [Hc | Hc].
    + rewrite bool_decide_eq_true_2 by done. by rewrite (property_elem obj k v).
    + rewrite bool_decide_eq_false_2 by done. by rewrite (Hin k v).
  - intros k Hk. rewrite set_converted_data by done.
    rewrite bool_decide_eq_false_2 by (intros Hc; by apply Hk, Hsub).
    by rewrite Hout.
Qed.

End StatefulObject.

(** A collection of two fields without convert functions; the type of the
    first has one. *)
Definition name_fields : list Stateful.Field :=
  [{| Stateful.name := "first"; Stateful.convert := None;
      Stateful.type_convert :=
        Some {| Stateful.ref := 1; Stateful.convert_fn := λ v _, v |} |};
   {| Stateful.name := "last"; Stateful.convert := None;
      Stateful.type_convert := None |}].

Lemma name_fields_plain : plain_fields name_fields.
Proof.
  intros key. unfold converter, Stateful.item, name_fields.
  cbn [List.find Stateful.name].
  destruct (String.eqb "first" key); [done |].
  by destruct (String.eqb "last" key).
Qed.

Lemma set_object_stores_all_witness :
  let w' := snd (Stateful.set (Some name_fields)
                   (Stateful.SetObject [("first", VStr "Ann"); ("last", VStr "Lee")])
                   Stateful.constructor) in
  Stateful.get "first" (Stateful.this w') = VStr "Ann"
  ∧ Stateful.get "last" (Stateful.this w') = VStr "Lee".
Proof.
  assert (Hnd : NoDup ([("first", VStr "Ann"); ("last", VStr "Lee")].*1)).
  { apply (bool_decide_unpack _). by vm_compute. }
  assert (Hord : ordinary_object [("first", VStr "Ann"); ("last", VStr "Lee")]).
  { repeat constructor. }
  pose proof (set_object_stores_all name_fields
                [("first", VStr "Ann"); ("last", VStr "Lee")]
                Stateful.constructor name_fields_plain Hord Hnd) as [H _].
  split; apply H.
  - apply elem_of_cons. by left.
  - apply elem_of_cons. right. apply elem_of_cons. by left.
Defined.

Section StatefulSnapshot.
Import Stateful.

Variable fs : list Field.

(** The modified map after the loop of setDirty over the fields. *)
Definition snapshot (r : t) (m : gmap string Value) (l : list Field)
    : gmap string Value :=
  foldl (λ m field, <[name field := get (name field) r]> m) m l.

Lemma snapshot_lookup (r : t) (l : list Field) :
  ∀ (m : gmap string Value) (n : string),
    snapshot r m l !! n =
      if bool_decide (n ∈ name <$> l) then Some (get n r) else m !! n.
Proof.
  unfold snapshot. induction l as [|field rest IH]; intros m n; cbn.
  - by rewrite bool_decide_eq_false_2 by apply not_elem_of_nil.
  - rewrite IH. destruct (decide (n ∈ name <$> rest)) as [Hin | Hout].
    + rewrite (bool_decide_eq_true_2 (n ∈ name <$> rest)) by done.
      rewrite bool_decide_eq_true_2; [done |]. apply elem_of_cons. by right.
    + rewrite (bool_decide_eq_false_2 (n ∈ name <$> rest)) by done.
      destruct (decide (n = name field)) as [-> | Hne].
      * rewrite bool_decide_eq_true_2 by (apply elem_of_cons; by left).
        by rewrite lookup_insert_eq.
      * rewrite bool_decide_eq_false_2.
        -- by rewrite lookup_insert_ne.
        -- intros [? | ?]%elem_of_cons; done.
Qed.

Lemma snapshot_data (r r' : t) (l : list Field) :
  data r = data r' → ∀ m, snapshot r m l = snapshot r' m l.
Proof.
  intros Hd. unfold snapshot, get. rewrite Hd. done.
Qed.

Lemma each_modified_spec (l : list Field) :
  ∀ (w : World) (m : gmap string Value),
    modified (this w) = Some m →
    each_modified l w =
      (Return tt,
       {| this := {| editing := editing (this w); dirty := dirty (this w);
                     modified := Some (snapshot (this w) m l);
                     data := data (this w) |};
          notified := notified w |}).
Proof.
  induction l as [|field rest IH]; intros w m Hm.
  - cbn. unfold ret. destruct w as [[e d mo da] n]. cbn in *. by rewrite Hm.
  - cbn [each_modified]. unfold bind at 1, read. cbn. rewrite Hm.
    unfold bind at 1, write. cbn.
    erewrite IH by reflexivity. cbn.
    by rewrite (snapshot_data _ (this w)).
Qed.

Lemma setDirty_spec (w : World) :
  setDirty (Some fs) w =
    (Return tt,
     {| this := {| editing := editing (this w); dirty := true;
                   modified :=
                     Some (snapshot (this w)
                             (match modified (this w) with
                              | Some m => m
                              | None => ∅
                              end) fs);
                   data := data (this w) |};
        notified := notified w |}).
Proof.
  unfold setDirty, bind, read, write, ret. cbn.
  destruct (modified (this w)) as [m|] eqn:E; cbn.
  - erewrite each_modified_spec by reflexivity. cbn.
    by rewrite (snapshot_data _ (this w)).
  - erewrite each_modified_spec by reflexivity. cbn.
    by rewrite (snapshot_data _ (this w)).
Qed.

(** The fields of the collection have names Object.prototype does not
    define. *)
Definition ordinary_fields : Prop :=
  Forall (λ n, ordinary n = true) (name <$> fs).

(** X13. With a fields collection whose field names Object.prototype does
    not define, setDirty always returns; it marks the record dirty, leaves
    the bag, editing and the notifications as they are, and records every
    field of the collection in the modified map with the value get returns
    for it now, replacing what was recorded for it before; what was
    recorded for other names stays. *)
Theorem setDirty_records_current_values (w : World) :
  ordinary_fields →
  let w' := snd (setDirty (Some fs) w) in
  fst (setDirty (Some fs) w) = Return tt
  ∧ dirty (this w') = true
  ∧ data (this w') = data (this w)
  ∧ editing (this w') = editing (this w)
  ∧ notified w' = notified w
  ∧ ∃ m', modified (this w') = Some m'
          ∧ ∀ n, m' !! n =
                   if bool_decide (n ∈ name <$> fs) then Some (get n (this w))
                   else match modified (this w) with
                        | Some m => m !! n
                        | None => None
                        end.
Proof.
  intros _. cbn zeta. rewrite setDirty_spec. cbn. repeat split.
  eexists; split; [reflexivity |]. intros n. rewrite snapshot_lookup.
  destruct (bool_decide _); [done |].
  by destruct (modified (this w)).
Qed.

(** A sequence of set(name, value) calls. *)
Definition set_each (l : list (string * Value)) (w : World) : World :=
  foldl (λ w kv, snd (set (Some fs) (SetField (fst kv) (snd kv)) w)) w l.

Lemma set_each_modified (l : list (string * Value)) :
  ∀ w, modified (this (set_each l w)) = modified (this w).
Proof.
  unfold set_each. induction l as [|[k v] rest IH]; intros w; [done |].
  cbn [foldl fst snd set]. rewrite IH. by rewrite set_value_spec.
Qed.

Lemma snapshot_unshadowed (r : t) (m : gmap string Value) :
  ordinary_fields → ordinary_keys m →
  shadowed (snapshot r m fs !! "hasOwnProperty") = false.
Proof.
  intros Hf Hm. rewrite snapshot_lookup.
  destruct (decide ("hasOwnProperty" ∈ name <$> fs)) as [Hin | Hout].
  - unfold ordinary_fields in Hf. rewrite Forall_forall in Hf.
    specialize (Hf _ Hin). discriminate Hf.
  - rewrite bool_decide_eq_false_2 by done.
    by apply ordinary_keys_unshadowed.
Qed.

(** X14. setDirty takes a snapshot that reject restores.  With field names
    and names set that Object.prototype does not define, on a record whose
    modified map has only such keys: after setDirty, any number of
    set(name, value) calls and then reject, get of every field of the
    collection returns what it returned when setDirty was called, unless
    that was a function, in which case the field keeps the value the last
    set gave it. *)
Theorem setDirty_then_reject_restores (l : list (string * Value))
    (silent : Value) (w : World) (n : string) :
  ordinary_fields → ordinary_object l →
  (∀ m, modified (this w) = Some m → ordinary_keys m) →
  n ∈ name <$> fs →
  let changed := set_each l (snd (setDirty (Some fs) w)) in
  get n (this (snd (reject silent changed))) =
    if is_function (get n (this w)) then get n (this changed)
    else get n (this w).
Proof.
  intros Hf _ Hm Hn changed.
  assert (Hmod : modified (this changed) =
                 Some (snapshot (this w)
                         (match modified (this w) with
                          | Some m => m
                          | None => ∅
                          end) fs)).
  { subst changed. by rewrite set_each_modified, setDirty_spec. }
  rewrite reject_spec.
  2: { rewrite Hmod. apply snapshot_unshadowed; [done |].
       destruct (modified (this w)) as [m|]; [by apply Hm |].
       apply map_Forall_empty. }
  unfold get at 1. cbn. rewrite Hmod.
  rewrite restore_lookup, snapshot_lookup.
  rewrite bool_decide_eq_true_2 by done.
  destruct (is_function (get n (this w))); done.
Qed.

End StatefulSnapshot.

Lemma setDirty_then_reject_restores_witness :
  let w := snd (Stateful.set (Some name_fields)
                  (Stateful.SetField "first" (VStr "Ann")) Stateful.constructor) in
  let changed := set_each name_fields [("first", VStr "Bob")]
                   (snd (Stateful.setDirty (Some name_fields) w)) in
  Stateful.get "first" (Stateful.this changed) = VStr "Bob"
  ∧ Stateful.get "first"
      (Stateful.this (snd (Stateful.reject VUndefined changed))) = VStr "Ann".
Proof.
  split; [by vm_compute |].
  apply (setDirty_then_reject_restores name_fields [("first", VStr "Bob")]
           VUndefined
           (snd (Stateful.set (Some name_fields)
                   (Stateful.SetField "first" (VStr "Ann"))
                   Stateful.constructor))
           "first").
  - repeat constructor.
  - repeat constructor.
  - intros m [= <-]. apply map_Forall_empty.
  - apply elem_of_cons. by left.
Defined.

Section StatefulChanges.
Import Stateful.

Variable fields : option (list Field).

Lemma getChanges_fold (r : t) (m : gmap string Value) (f : string) :
  map_fold (λ field (_ : Value) (changes : gmap string Value),
              <[field := get field r]> changes)
           ∅ m !! f
  = match m !! f with
    | Some _ => Some (get f r)
    | None => None
    end.
Proof.
  apply (map_fold_weak_ind
           (λ (changes : gmap string Value) (m : gmap string Value),
              changes !! f = match m !! f with
                             | Some _ => Some (get f r)
                             | None => None
                             end)).
  - by rewrite !lookup_empty.
  - intros i x m' changes Hi IH. destruct (decide (i = f)) as [-> | Hne].
    + by rewrite !lookup_insert_eq.
    + by rewrite !lookup_insert_ne.
Qed.

(** X15. On a record whose modified map has only keys that Object.prototype
    does not define, getChanges lists exactly the fields isModified
    reports, each with the value get returns for it now (not the recorded
    original); after commit, and after reject on such a record, it is
    empty. *)
Theorem getChanges_current_values (r : t) (silent : Value) (w : World) :
  (∀ m, modified r = Some m → ordinary_keys m) →
  (∀ m, modified (this w) = Some m → ordinary_keys m) →
  (∀ f, getChanges r !! f = if isModified f r then Some (get f r) else None)
  ∧ getChanges (this (snd (commit silent w))) = ∅
  ∧ getChanges (this (snd (reject silent w))) = ∅.
Proof.
  intros _ Hw.
  split; [| by rewrite commit_spec, reject_spec_ordinary].
  intros f. unfold getChanges, isModified.
  destruct (modified r) as [m|]; [| by rewrite lookup_empty].
  rewrite getChanges_fold. destruct (m !! f) as [v|] eqn:E.
  - rewrite bool_decide_eq_true_2; [done | by eexists].
  - rewrite bool_decide_eq_false_2; [done | by intros [? ?]].
Qed.

(** X16. Once a record is committed, or rejected when its modified map had
    only keys that Object.prototype does not define, a following reject
    restores nothing and a following commit changes nothing: the record is
    left exactly as the first call left it. *)
Theorem commit_reject_settled (s1 s2 : Value) (w : World) :
  (∀ m, modified (this w) = Some m → ordinary_keys m) →
  this (snd (reject s2 (snd (commit s1 w)))) = this (snd (commit s1 w))
  ∧ this (snd (reject s2 (snd (reject s1 w)))) = this (snd (reject s1 w))
  ∧ this (snd (commit s2 (snd (reject s1 w)))) = this (snd (reject s1 w))
  ∧ this (snd (commit s2 (snd (commit s1 w)))) = this (snd (commit s1 w))
  ∧ data (this (snd (reject s2 (snd (commit s1 w))))) = data (this w).
Proof.
  intros Hw. rewrite (reject_spec_ordinary s1 w Hw), !commit_spec.
  by rewrite !reject_spec.
Qed.

Lemma set_keeps_modified (args : SetArgs) (w : World) :
  modified (this (snd (set fields args w))) = modified (this w).
Proof.
  destruct args as [obj | f v].
  - destruct (shadowed (own obj "hasOwnProperty")) eqn:Hs.
    { cbn [set]. by rewrite Hs. }
    destruct fields as [fs|].
    + destruct (set_object_after_sets fs obj w Hs) as (w' & -> & H).
      by destruct H as (_ & Hm & _).
    + cbn [set]. rewrite Hs. by destruct obj as [|[key value] rest].
  - cbn [set]. by rewrite set_value_spec.
Qed.

Definition is_setDirty (m : Method) : bool :=
  match m with
  | call_setDirty => true
  | _ => false
  end.

(** Nothing is recorded as modified. *)
Definition unrecorded (r : t) : Prop :=
  match modified r with
  | Some m => m = ∅
  | None => True
  end.

Lemma invoke_unrecorded (m : Method) (w : World) :
  is_setDirty m = false → unrecorded (this w) →
  unrecorded (this (snd (invoke fields m w))).
Proof.
  unfold unrecorded.
  destruct m as [args | | silent | silent]; cbn [invoke]; intros Hm H.
  - by rewrite set_keeps_modified.
  - done.
  - by rewrite commit_spec.
  - destruct (reject_cases silent w) as [-> | ->]; done.
Qed.

(** X17. set never records a field as modified: on a record reached from
    the constructor by set, commit and reject calls only (no setDirty),
    isModified is false for every field, getChanges is empty, and reject
    leaves the data bag as it is. *)
Theorem nothing_modified_without_setDirty (calls : list Method)
    (silent : Value) :
  forallb (λ m, negb (is_setDirty m)) calls = true →
  let w := run fields calls in
  (∀ f, isModified f (this w) = false)
  ∧ getChanges (this w) = ∅
  ∧ data (this (snd (reject silent w))) = data (this w).
Proof.
  intros Hcalls w.
  assert (Hw : unrecorded (this w)).
  { subst w. unfold run.
    assert (Hgen : ∀ w0, unrecorded (this w0) →
              unrecorded
                (this (foldl (λ w m, snd (invoke fields m w)) w0 calls))).
    { induction calls as [|m calls IH]; intros w0 H0; [done |].
      cbn in Hcalls. apply andb_true_iff in Hcalls as [Hm Hcalls].
      cbn [foldl]. apply IH; [done |].
      apply invoke_unrecorded; [by apply negb_true_iff | done]. }
    by apply Hgen. }
  unfold unrecorded in Hw. rewrite reject_spec.
  2: { destruct (modified (this w)) as [m|]; [by subst m | done]. }
  cbn. unfold isModified, getChanges.
  destruct (modified (this w)) as [m|]; [subst m | done].
  split; [| split].
  - intros f. by rewrite lookup_empty.
  - apply map_fold_empty.
  - unfold restore. apply map_fold_empty.
Qed.

End StatefulChanges.

Lemma nothing_modified_without_setDirty_witness :
  let w := Stateful.run (Some name_fields)
             [Stateful.call_set (Stateful.SetField "first" (VStr "Ann"));
              Stateful.call_commit VUndefined;
              Stateful.call_set
                (Stateful.SetObject [("first", VStr "Bob"); ("last", VStr "Lee")])] in
  Stateful.get "first" (Stateful.this w) = VStr "Bob"
  ∧ Stateful.isModified "first" (Stateful.this w) = false
  ∧ Stateful.data (Stateful.this (snd (Stateful.reject VUndefined w)))
    = Stateful.data (Stateful.this w).
Proof.
  split; [by vm_compute |].
  pose proof (nothing_modified_without_setDirty (Some name_fields)
                [Stateful.call_set (Stateful.SetField "first" (VStr "Ann"));
                 Stateful.call_commit VUndefined;
                 Stateful.call_set
                   (Stateful.SetObject
                      [("first", VStr "Bob"); ("last", VStr "Lee")])]
                VUndefined eq_refl) as (H1 & _ & H3).
  split; [apply H1 | apply H3].
Defined.

(** ** getPage: when it raises *)

Section PageMore.
Import Page.

(** X18. getPage raises in two cases only, which the -1 sentinel does not
    cover: the request itself raises, or execute is truthy, a response
    text came back and evaluating it in parentheses raises.  It raises what
    the request or eval raised. *)
Theorem getPage_raises_iff (window : Window) (url : string) (execute : Value)
    (e : Exception) :
  getPage window url execute = Throw e
  ↔ XMLHttpRequest window = true
    ∧ (send window "GET" url = Throw e
       ∨ ∃ text,
           send window "GET" url = Return (Some text)
           ∧ truthy execute = true
           ∧ eval window (String.append "(" (String.append text ")"))
             = Throw e).
Proof.
  unfold getPage. destruct (XMLHttpRequest window).
  2: { split; [discriminate | by intros [? _]]. }
  destruct (send window "GET" url) as [[text|]|e'].
  - destruct (truthy execute).
    + split.
      * intros H. split; [done |]. right. by exists text.
      * intros [_ [H | (t & [= <-] & _ & H)]]; [discriminate | done].
    + split; [discriminate |].
      intros [_ [H | (t & _ & H & _)]]; discriminate.
  - split; [discriminate |].
    intros [_ [H | (t & H & _)]]; discriminate.
  - split.
    + intros [= ->]. split; [done | by left].
    + intros [_ [[= ->] | (t & H & _)]]; [done | discriminate].
Qed.



End PageMore.

(** ** Stateful: the restated properties at concrete records *)

Lemma name_fields_ordinary : ordinary_fields name_fields.
Proof. repeat constructor. Qed.

Lemma set_object_notifies_per_property_witness :
  Stateful.notified
    (snd (Stateful.set (Some name_fields)
            (Stateful.SetObject [("first", VStr "Ann"); ("last", VStr "Lee")])
            Stateful.constructor))
  = [Stateful.afterEdit; Stateful.afterEdit].
Proof.
  assert (Hord : ordinary_object [("first", VStr "Ann"); ("last", VStr "Lee")]).
  { repeat constructor. }
  apply (proj2 (proj2 (proj2 (proj2
           (set_object_notifies_per_property name_fields
              [("first", VStr "Ann"); ("last", VStr "Lee")]
              Stateful.constructor Hord))))).
Defined.

Lemma setDirty_records_current_values_witness :
  Stateful.dirty
    (Stateful.this (snd (Stateful.setDirty (Some name_fields)
                           Stateful.constructor))) = true
  ∧ Stateful.data
      (Stateful.this (snd (Stateful.setDirty (Some name_fields)
                             Stateful.constructor)))
    = Stateful.data (Stateful.this Stateful.constructor).
Proof.
  pose proof (setDirty_records_current_values name_fields
                Stateful.constructor name_fields_ordinary)
    as (_ & H1 & H2 & _).
  split; [exact H1 | exact H2].
Defined.

Lemma getChanges_current_values_witness :
  Stateful.getChanges (Stateful.this edited) !! "a" = Some (VStr "new")
  ∧ Stateful.getChanges
      (Stateful.this (snd (Stateful.reject VUndefined edited))) = ∅.
Proof.
  pose proof (getChanges_current_values (Stateful.this edited) VUndefined
                edited edited_ordinary edited_ordinary) as (H1 & _ & H3).
  split; [apply (H1 "a") | exact H3].
Defined.

Lemma commit_reject_settled_witness :
  Stateful.this
    (snd (Stateful.reject VUndefined (snd (Stateful.reject VUndefined edited))))
  = Stateful.this (snd (Stateful.reject VUndefined edited)).
Proof.
  apply (proj1 (proj2 (commit_reject_settled VUndefined VUndefined edited
                         edited_ordinary))).
Defined.
